(** * Graph layout, collapse state and service reconciliation of the
      Snowflake ML viewer

    The development embeds
    - [frontend/src/types/index.ts] (the graph data model),
    - [frontend/src/components/NetworkGraph.tsx]
      ([layoutNodesWithClusters], [createEdges], [togglePoolCollapse] and the
      component's state), and
    - the backend operations [get_services] and [get_graph_data] of
      [backend/services/snowflake_service.py], as far as
      [FEATURE_SERVICE_COMPUTE_POOL_CONNECTION.md] and the specification
      describe them.

    Numbers: every coordinate the layout computes is an integer (sums and
    products of integer constants and array indices, and one halving of an
    even cluster height, see [clusterHeight_even]), so JavaScript's doubles
    are modelled by [Z]. Where a number is printed ([numberToString]) the
    model covers the integers up to [Number.MAX_SAFE_INTEGER].

    Objects: a [Map] is a finite map; a [Record<string, boolean>] is the
    finite map of its own properties, and a read of a key that is not among
    them falls through to [Object.prototype] ([inherited]). *)

From stdpp Require Import base option list gmap strings sorting pretty.
From Stdlib Require Import ZArith Lia.

#[local] Open Scope Z_scope.
#[local] Set Warnings "-clear-no-such-hyp".

(** ** Data model: [frontend/src/types/index.ts] *)

Record ComputePoolData := {
  cp_name : string;
  cp_state : string;
  cp_minNodes : Z;
  cp_maxNodes : Z;
  cp_instanceFamily : string;
  cp_owner : string
}.

Record ServiceData := {
  sv_name : string;
  sv_database : string;
  sv_schema : string;
  sv_owner : string;
  sv_computePool : string;
  sv_status : string;
  sv_currentInstances : Z;
  sv_targetInstances : Z;
  sv_eaiList : list string
}.

Record NotebookData := {
  nb_name : string;
  nb_database : string;
  nb_schema : string;
  nb_owner : string;
  nb_warehouse : option string;
  nb_idleTimeout : option Z
}.

Record EaiData := {
  eai_name : string;
  eai_type : string;
  eai_enabled : bool
}.

(** [NodeData = ComputePoolData | ServiceData | NotebookData | EaiData]. *)
Inductive NodeData :=
| PoolData (d : ComputePoolData)
| SvcData (d : ServiceData)
| NbData (d : NotebookData)
| IntegrationData (d : EaiData).

(** [GraphNode.type]. *)
Inductive NodeType := computePool | service | notebook | eai.

#[global] Instance NodeType_eq_dec : EqDecision NodeType.
Proof. solve_decision. Defined.

Record GraphNode := {
  node_id : string;
  node_type : NodeType;
  node_data : NodeData
}.

Record GraphEdge := {
  edge_id : string;
  edge_source : string;
  edge_target : string;
  edge_label : option string
}.

Record GraphData := {
  g_nodes : list GraphNode;
  g_edges : list GraphEdge
}.

(** [(n.data as ComputePoolData).name]: a cast does nothing at run time, and
    each of the four interfaces has a [name]. *)
Definition data_name (d : NodeData) : string :=
  match d with
  | PoolData p => cp_name p
  | SvcData s => sv_name s
  | NbData n => nb_name n
  | IntegrationData e => eai_name e
  end.

(** [(n.data as ServiceData).computePool]: only a [ServiceData] has the
    property; on the other three the read yields [undefined] ([None]). *)
Definition data_computePool (d : NodeData) : option string :=
  match d with
  | SvcData s => Some (sv_computePool s)
  | _ => None
  end.

(** ** The nodes and edges handed to the rendering surface *)

(** A React Flow node. The three [__] properties exist on compute-pool nodes
    only; [A] is the type of the toggle handle stored in
    [__onToggleCollapse]. [__collapsed] is kept as its truthiness, which is
    all its readers branch on. *)
Record RFNode (A : Type) := {
  rf_id : string;
  rf_type : NodeType;
  rf_x : Z;
  rf_y : Z;
  rf_data : NodeData;
  rf_collapsed : option bool;
  rf_serviceCount : option nat;
  rf_onToggleCollapse : option A
}.
Arguments rf_id {A} _.
Arguments rf_type {A} _.
Arguments rf_x {A} _.
Arguments rf_y {A} _.
Arguments rf_data {A} _.
Arguments rf_collapsed {A} _.
Arguments rf_serviceCount {A} _.
Arguments rf_onToggleCollapse {A} _.

(** A React Flow edge; the style objects of [createEdges] are the same
    literals on every edge and are left out. *)
Record RFEdge := {
  re_id : string;
  re_source : string;
  re_target : string;
  re_label : option string;
  re_type : string;
  re_animated : bool
}.

Record LayoutResult (A : Type) := {
  lr_nodes : list (RFNode A);
  lr_hiddenServiceIds : gset string
}.
Arguments lr_nodes {A} _.
Arguments lr_hiddenServiceIds {A} _.

(** ** Layout parameters *)

Definition xPositions_notebook : Z := 0.
Definition xPositions_service : Z := 400.
Definition xPositions_computePool : Z := 750.
Definition xPositions_eai : Z := 1100.
Definition clusterSpacing : Z := 40.
Definition serviceYSpacing : Z := 70.
Definition notebookYSpacing : Z := 100.
Definition eaiYSpacing : Z := 80.
Definition yOffset : Z := 50.

(** ** [Array.prototype.sort] with the comparator [bCount - aCount]

    The sort is stable (ECMAScript 2019), and a stable sort by a consistent
    comparator has one possible result; insertion from the right computes
    it. [a] goes before [b] unless [b]'s key is strictly larger. *)
Section SortDesc.
Context {T : Type} (key : T → nat).

Fixpoint insert_desc (x : T) (l : list T) : list T :=
  match l with
  | [] => [x]
  | y :: l' =>
      if (key y <=? key x)%nat then x :: y :: l' else y :: insert_desc x l'
  end.

Definition sort_desc (l : list T) : list T := foldr insert_desc [] l.
End SortDesc.

(** ** [layoutNodesWithClusters] *)

Definition is_type (t : NodeType) (n : GraphNode) : bool :=
  bool_decide (node_type n = t).

(** The body of the [forEach] that fills [servicesByPool]: create the
    bucket when the key is new, then push the service onto it. The key is
    the value read from [computePool], [undefined] included. *)
Definition group_service (mp : gmap (option string) (list GraphNode))
    (svc : GraphNode) : gmap (option string) (list GraphNode) :=
  let poolName := data_computePool (node_data svc) in
  let mp1 := if bool_decide (is_Some (mp !! poolName)) then mp
             else <[poolName := []]> mp in
  <[poolName := default [] (mp1 !! poolName) ++ [svc]]> mp1.

Definition servicesByPool (graphData : GraphData)
    : gmap (option string) (list GraphNode) :=
  foldl group_service ∅ (filter (λ n, is_type service n) (g_nodes graphData)).

(** [servicesByPool.get(name)?.length || 0] *)
Definition serviceCount (graphData : GraphData) (n : GraphNode) : nat :=
  default 0%nat
    (length <$> servicesByPool graphData !! Some (data_name (node_data n))).

Definition computePools (graphData : GraphData) : list GraphNode :=
  sort_desc (serviceCount graphData)
    (filter (λ n, is_type computePool n) (g_nodes graphData)).

(** [servicesByPool.get(poolData.name) || []] *)
Definition poolServices (graphData : GraphData) (pool : GraphNode)
    : list GraphNode :=
  default [] (servicesByPool graphData !! Some (data_name (node_data pool))).

(** A [Record<string, boolean>] is an object created by an object literal:
    a finite map of its own properties, in front of [Object.prototype]. The
    property names every such object inherits (ECMAScript, properties of the
    Object prototype object and its additional properties for web
    browsers). *)
Definition objectPrototypeKeys : list string :=
  ["constructor"; "hasOwnProperty"; "isPrototypeOf"; "propertyIsEnumerable";
   "toLocaleString"; "toString"; "valueOf"; "__proto__";
   "__defineGetter__"; "__defineSetter__"; "__lookupGetter__";
   "__lookupSetter__"].

(** Reading [record[key]] where [key] is not an own property: an inherited
    function (for [__proto__], the prototype object), which is truthy, when
    [key] is one of these names, and [undefined] otherwise. *)
Definition inherited (key : string) : bool :=
  bool_decide (key ∈ objectPrototypeKeys).

(** [collapsedPools[pool.id] ?? false], as the condition the layout and the
    pool node branch on: the own property when there is one, else the
    truthiness of what the prototype chain gives ([undefined ?? false] is
    [false]; an inherited function is kept by [??] and is truthy). *)
Definition isCollapsed (collapsedPools : gmap string bool) (poolId : string)
    : bool :=
  default (inherited poolId) (collapsedPools !! poolId).

Definition visibleServiceCount (graphData : GraphData)
    (collapsedPools : gmap string bool) (pool : GraphNode) : nat :=
  if isCollapsed collapsedPools (node_id pool) then 0%nat
  else length (poolServices graphData pool).

Definition clusterHeight (graphData : GraphData)
    (collapsedPools : gmap string bool) (pool : GraphNode) : Z :=
  Z.max 80
    (Z.of_nat (visibleServiceCount graphData collapsedPools pool)
     * serviceYSpacing).

(** Nodes of kinds that carry no view metadata. *)
Definition plainNode {A} (n : GraphNode) (x y : Z) : RFNode A :=
  {| rf_id := node_id n; rf_type := node_type n; rf_x := x; rf_y := y;
     rf_data := node_data n; rf_collapsed := None; rf_serviceCount := None;
     rf_onToggleCollapse := None |}.

(** The mutable locals of the cluster loop. *)
Record LoopState (A : Type) := {
  st_nodes : list (RFNode A);
  st_hiddenServiceIds : gset string;
  st_currentY : Z
}.
Arguments st_nodes {A} _.
Arguments st_hiddenServiceIds {A} _.
Arguments st_currentY {A} _.

Section Layout.
Context {A : Type}.
Variable graphData : GraphData.
Variable collapsedPools : gmap string bool.
Variable togglePoolCollapse : string → A.

Definition poolNode (pool : GraphNode) (currentY : Z) : RFNode A :=
  let h := clusterHeight graphData collapsedPools pool in
  let poolY := currentY + (if 0 <? h then h / 2 - 40 else 0) in
  {| rf_id := node_id pool; rf_type := node_type pool;
     rf_x := xPositions_computePool; rf_y := poolY;
     rf_data := node_data pool;
     rf_collapsed := Some (isCollapsed collapsedPools (node_id pool));
     rf_serviceCount := Some (length (poolServices graphData pool));
     rf_onToggleCollapse := Some (togglePoolCollapse (node_id pool)) |}.

Definition serviceNodes (pool : GraphNode) (currentY : Z)
    : list (RFNode A) :=
  imap (λ idx svc,
          plainNode svc xPositions_service
            (currentY + Z.of_nat idx * serviceYSpacing))
       (poolServices graphData pool).

(** The body of [computePools.forEach]. *)
Definition placeCluster (st : LoopState A) (pool : GraphNode)
    : LoopState A :=
  let currentY := st_currentY st in
  let nodes1 := st_nodes st ++ [poolNode pool currentY] in
  let collapsed := isCollapsed collapsedPools (node_id pool) in
  {| st_nodes :=
       if collapsed then nodes1
       else nodes1 ++ serviceNodes pool currentY;
     st_hiddenServiceIds :=
       if collapsed
       then foldl (λ h s, h ∪ {[node_id s]}) (st_hiddenServiceIds st)
              (poolServices graphData pool)
       else st_hiddenServiceIds st;
     st_currentY :=
       currentY + (clusterHeight graphData collapsedPools pool
                   + clusterSpacing) |}.

Definition initialLoopState : LoopState A :=
  {| st_nodes := []; st_hiddenServiceIds := ∅; st_currentY := yOffset |}.

Definition columnNodes (t : NodeType) (x spacing : Z) : list (RFNode A) :=
  imap (λ index n, plainNode n x (yOffset + Z.of_nat index * spacing))
       (filter (λ n, is_type t n) (g_nodes graphData)).

Definition layoutNodesWithClusters : LayoutResult A :=
  let st := foldl placeCluster initialLoopState (computePools graphData) in
  {| lr_nodes :=
       st_nodes st
       ++ columnNodes notebook xPositions_notebook notebookYSpacing
       ++ columnNodes eai xPositions_eai eaiYSpacing;
     lr_hiddenServiceIds := st_hiddenServiceIds st |}.
End Layout.

(** ** [createEdges] *)

Definition renderEdge (edge : GraphEdge) : RFEdge :=
  {| re_id := edge_id edge; re_source := edge_source edge;
     re_target := edge_target edge; re_label := edge_label edge;
     re_type := "smoothstep"; re_animated := true |}.

Definition edgeVisible (hiddenServiceIds : gset string) (edge : GraphEdge)
    : bool :=
  negb (bool_decide (edge_source edge ∈ hiddenServiceIds))
  && negb (bool_decide (edge_target edge ∈ hiddenServiceIds)).

Definition createEdges (graphData : GraphData)
    (hiddenServiceIds : gset string) : list RFEdge :=
  renderEdge <$> filter (λ e, edgeVisible hiddenServiceIds e)
                   (g_edges graphData).

(** ** The component's collapse state *)

(** [useState<Record<string, boolean>>({})] *)
Definition initialCollapsedPools : gmap string bool := ∅.

(** The updater of [togglePoolCollapse]:
    [prev => ({ ...prev, [poolId]: !prev[poolId] })]. The spread copies the
    own properties, and the computed key defines an own property (also for
    [__proto__]); [prev[poolId]] reads through the prototype chain, so
    [!undefined] is [true] and [!] of an inherited function is [false]. *)
Definition togglePoolCollapse (prev : gmap string bool) (poolId : string)
    : gmap string bool :=
  <[poolId := negb (default (inherited poolId) (prev !! poolId))]> prev.

(** What the component reacts to: the toggle handle of a pool node, and the
    handlers it passes to React Flow. Only the first calls
    [setCollapsedPools]. *)
Inductive Event :=
| ToggleCollapse (poolId : string)
| NodeClick (nodeId : string)
| PaneClick
| NodesChange
| EdgesChange.

Definition handleEvent (collapsedPools : gmap string bool) (ev : Event)
    : gmap string bool :=
  match ev with
  | ToggleCollapse poolId => togglePoolCollapse collapsedPools poolId
  | _ => collapsedPools
  end.

(** The handle the component passes down: invoking it applies the updater
    of [togglePoolCollapse] to the current map. *)
Definition toggleHandle (poolId : string)
    : gmap string bool → gmap string bool :=
  λ prev, togglePoolCollapse prev poolId.

(** What a render of the component hands to React Flow. *)
Definition render (data : GraphData) (collapsedPools : gmap string bool)
    : list (RFNode (gmap string bool → gmap string bool)) * list RFEdge :=
  let r := layoutNodesWithClusters data collapsedPools toggleHandle in
  (lr_nodes r, createEdges data (lr_hiddenServiceIds r)).

(** ** Observations used to state the properties *)

(** The service nodes of the graph, and the test "this service's
    [computePool] reads [k]". *)
Definition services (graphData : GraphData) : list GraphNode :=
  filter (λ n, is_type service n) (g_nodes graphData).

Definition inPool (k : option string) (svc : GraphNode) : bool :=
  bool_decide (data_computePool (node_data svc) = k).

Definition isPoolNode {A} (n : RFNode A) : bool :=
  bool_decide (rf_type n = computePool).

(** The rendered compute-pool nodes, in output order. *)
Definition poolNodesOf {A} (r : LayoutResult A) : list (RFNode A) :=
  filter (λ n, isPoolNode n) (lr_nodes r).

(** A rendered node's id with its 2-D position. *)
Definition coordinates {A} (n : RFNode A) : string * (Z * Z) :=
  (rf_id n, (rf_x n, rf_y n)).

Record ClusterSpan := {
  span_pool : GraphNode;
  span_top : Z;
  span_bottom : Z
}.

Section LoopObservations.
Context {A : Type}.
Variable graphData : GraphData.
Variable collapsedPools : gmap string bool.
Variable onToggle : string → A.

(** The state of the cluster loop at the start of each iteration. *)
Fixpoint loopStates (st : LoopState A) (pools : list GraphNode)
    : list (LoopState A) :=
  match pools with
  | [] => []
  | pool :: rest =>
      st :: loopStates
              (placeCluster graphData collapsedPools onToggle st pool) rest
  end.

(** Each pool, in layout order, with the vertical span of its cluster:
    the cursor [currentY] when its iteration starts, and that plus the
    cluster height. *)
Definition clusterSpans : list ClusterSpan :=
  zip_with
    (λ pool st,
       {| span_pool := pool;
          span_top := st_currentY st;
          span_bottom :=
            st_currentY st + clusterHeight graphData collapsedPools pool |})
    (computePools graphData)
    (loopStates initialLoopState (computePools graphData)).

(** The nodes one iteration pushes, as a function of the cursor. *)
Definition clusterOf (pool : GraphNode) (currentY : Z) : list (RFNode A) :=
  poolNode graphData collapsedPools onToggle pool currentY
  :: (if isCollapsed collapsedPools (node_id pool) then []
      else serviceNodes graphData pool currentY).

Fixpoint clusterNodes (pools : list GraphNode) (currentY : Z)
    : list (RFNode A) :=
  match pools with
  | [] => []
  | pool :: rest =>
      clusterOf pool currentY
      ++ clusterNodes rest
           (currentY
            + (clusterHeight graphData collapsedPools pool + clusterSpacing))
  end.
End LoopObservations.

(** The ids a collapsed pool hides. *)
Definition hiddenOf (graphData : GraphData)
    (collapsedPools : gmap string bool) (pool : GraphNode) : list string :=
  if isCollapsed collapsedPools (node_id pool)
  then node_id <$> poolServices graphData pool else [].

(** [clusterSpans] and the rendered pool nodes, as recursions on the
    cursor. *)
Fixpoint spansFrom (graphData : GraphData)
    (collapsedPools : gmap string bool) (pools : list GraphNode)
    (currentY : Z) : list ClusterSpan :=
  match pools with
  | [] => []
  | pool :: rest =>
      {| span_pool := pool; span_top := currentY;
         span_bottom :=
           currentY + clusterHeight graphData collapsedPools pool |}
      :: spansFrom graphData collapsedPools rest
           (currentY
            + (clusterHeight graphData collapsedPools pool + clusterSpacing))
  end.

Fixpoint poolNodesFrom {A} (graphData : GraphData)
    (collapsedPools : gmap string bool) (onToggle : string → A)
    (pools : list GraphNode) (currentY : Z) : list (RFNode A) :=
  match pools with
  | [] => []
  | pool :: rest =>
      poolNode graphData collapsedPools onToggle pool currentY
      :: poolNodesFrom graphData collapsedPools onToggle rest
           (currentY
            + (clusterHeight graphData collapsedPools pool + clusterSpacing))
  end.

(** The ids one iteration renders: the pool's, then its services' unless
    it is collapsed. *)
Definition clusterIds (graphData : GraphData)
    (collapsedPools : gmap string bool) (pool : GraphNode) : list string :=
  node_id pool
  :: (if isCollapsed collapsedPools (node_id pool) then []
      else node_id <$> poolServices graphData pool).

(** The ids of the nodes of the two independent columns. *)
Definition columnIds (graphData : GraphData) : list string :=
  (node_id <$> filter (λ n, is_type notebook n) (g_nodes graphData))
  ++ (node_id <$> filter (λ n, is_type eai n) (g_nodes graphData)).

(** ** The data model's conditions on a graph

    A graph is a node set keyed by id, a compute pool's identity is its
    name, and the assembler creates edges from a service to its pool and
    from a service to an integration only. The layout is typed on
    [GraphData] and checks none of this; the properties that need one of
    these conditions carry it as a hypothesis. *)

Definition uniqueNodeIds (g : GraphData) : Prop :=
  NoDup (node_id <$> g_nodes g).

Definition poolNames (g : GraphData) : list string :=
  (λ p, data_name (node_data p))
    <$> filter (λ n, is_type computePool n) (g_nodes g).

Definition uniquePoolNames (g : GraphData) : Prop := NoDup (poolNames g).

(** Both ends of the edge are ids of service nodes. *)
Definition joinsServices (g : GraphData) (e : GraphEdge) : bool :=
  bool_decide (edge_source e ∈ node_id <$> services g)
  && bool_decide (edge_target e ∈ node_id <$> services g).

Definition noServiceToServiceEdge (g : GraphData) : Prop :=
  Forall (λ e, joinsServices g e = false) (g_edges g).

(** The service's [computePool] is not the name of a pool node of the
    graph. *)
Definition orphanService (g : GraphData) (svc : GraphNode) : Prop :=
  data_computePool (node_data svc) ∉ (Some <$> poolNames g).

(** ** Backend: reconciling the service listings ([get_services]) *)

(** Modelled from the spec: the backend's service model, declared in the
    backend package, which is not among the sources; the attributes are
    those of section 3 of the specification. *)
Record Service := {
  svc_name : string;
  svc_database : string;
  svc_schema : string;
  svc_owner : string;
  svc_compute_pool : string;
  svc_status : string;
  svc_current_instances : Z;
  svc_target_instances : Z;
  svc_eai_list : list string
}.

(** Modelled from the spec: [service_key], whose computation the outline
    of [get_services] leaves out; section 4.1 keys the mapping by the fully
    qualified name [database.schema.name]. *)
Definition service_key (s : Service) : string :=
  svc_database s +:+ "." +:+ svc_schema s +:+ "." +:+ svc_name s.

(** A Python [dict]: keys are unique and keep their insertion order;
    [d[k] = v] replaces the value of a present key in place and appends a
    new key. *)
Fixpoint dict_set (d : list (string * Service)) (k : string) (v : Service)
    : list (string * Service) :=
  match d with
  | [] => [(k, v)]
  | (k', v') :: d' =>
      if decide (k' = k) then (k, v) :: d' else (k', v') :: dict_set d' k v
  end.

Fixpoint dict_get (d : list (string * Service)) (k : string)
    : option Service :=
  match d with
  | [] => None
  | (k', v') :: d' => if decide (k' = k) then Some v' else dict_get d' k
  end.

(** The result of a listing query: rows, or a failure, which is logged
    and contributes nothing. *)
Inductive Listing :=
| Rows (services : list Service)
| QueryFailed.

Definition rows_of (l : Listing) : list Service :=
  match l with
  | Rows services => services
  | QueryFailed => []
  end.

(** [for service in ...: services_map[service_key] = service] *)
Definition store_services (services_map : list (string * Service))
    (services : list Service) : list (string * Service) :=
  foldl (λ d s, dict_set d (service_key s) s) services_map services.

(** Modelled from the spec: the body of [get_services] in
    [backend/services/snowflake_service.py], which is not among the sources.
    [FEATURE_SERVICE_COMPUTE_POOL_CONNECTION.md] outlines it (a dict keyed
    by service, the baseline listing first, then the listing of every
    compute pool in turn, each entry overwriting, the values returned as a
    list) and section 4.1 of the specification gives the key and the
    handling of failed queries. [baseline] is the outcome of
    [SHOW SERVICES], [pool_listings] the outcomes of
    [_get_services_in_compute_pool] for the pools in iteration order. *)
Definition get_services (baseline : Listing) (pool_listings : list Listing)
    : list Service :=
  let services_map := store_services [] (rows_of baseline) in
  let services_map :=
    foldl (λ d pool_services, store_services d (rows_of pool_services))
      services_map pool_listings in
  services_map.*2.

(** The invariants of [services_map]: keys are unique, and each entry is
    stored under its own fully qualified name. *)
Definition well_keyed (d : list (string * Service)) : Prop :=
  NoDup d.*1 ∧ Forall (λ kv, service_key kv.2 = kv.1) d.

(** The records of the reconciliation scenario: service [A.B.S1] as the
    global listing has it (pool unresolved) and as the listing of [POOL1]
    has it. *)
Definition demoRecord (pool : string) : Service :=
  {| svc_name := "S1"; svc_database := "A"; svc_schema := "B";
     svc_owner := ""; svc_compute_pool := pool; svc_status := "RUNNING";
     svc_current_instances := 1; svc_target_instances := 1;
     svc_eai_list := [] |}.

(** The last record of a listing with the given fully qualified name. *)
Definition last_named (k : string) (services : list Service)
    : option Service :=
  last (filter (λ s, service_key s = k) services).

(** ** Backend: the reference validator of [get_graph_data] *)

(** Modelled from the spec: the validation step of [get_graph_data] in
    [backend/services/snowflake_service.py], which is not among the sources.
    Section 4.3 of the specification: build the set of valid node ids, keep
    the edges whose two endpoints are in it, drop and log the others; the
    nodes pass unchanged. The second component is the log, one entry
    (source, target, label) per dropped edge. *)
Definition validate_references (candidate : GraphData)
    : GraphData * list (string * string * option string) :=
  let valid_ids : gset string := list_to_set (node_id <$> g_nodes candidate) in
  let valid e := edge_source e ∈ valid_ids ∧ edge_target e ∈ valid_ids in
  ({| g_nodes := g_nodes candidate;
      g_edges := filter valid (g_edges candidate) |},
   (λ e, (edge_source e, edge_target e, edge_label e))
     <$> filter (λ e, ¬ valid e) (g_edges candidate)).

(** ** A small graph to evaluate the definitions on

    Two pools, the one with fewer services first in the input; a service
    whose pool is not in the graph; a notebook and an integration. The
    edges are the ones a validated graph has: a "runs on" edge for each
    service whose pool exists, and "uses" edges into the integration. *)

Definition demoPool (name : string) : GraphNode :=
  {| node_id := name; node_type := computePool;
     node_data :=
       PoolData {| cp_name := name; cp_state := "ACTIVE"; cp_minNodes := 1;
                   cp_maxNodes := 2; cp_instanceFamily := "CPU_X64_XS";
                   cp_owner := "ADMIN" |} |}.

Definition demoService (name pool : string) : GraphNode :=
  {| node_id := "DB.APP." +:+ name; node_type := service;
     node_data :=
       SvcData {| sv_name := name; sv_database := "DB"; sv_schema := "APP";
                  sv_owner := "ADMIN"; sv_computePool := pool;
                  sv_status := "RUNNING"; sv_currentInstances := 1;
                  sv_targetInstances := 1; sv_eaiList := ["EAI_X"] |} |}.

Definition demoEdge (source target label : string) : GraphEdge :=
  {| edge_id := source +:+ "->" +:+ target; edge_source := source;
     edge_target := target; edge_label := Some label |}.

Definition demoGraph : GraphData :=
  {| g_nodes :=
       [ demoPool "POOL_SMALL"; demoPool "POOL_BIG";
         demoService "S1" "POOL_SMALL"; demoService "B1" "POOL_BIG";
         demoService "B2" "POOL_BIG"; demoService "S2" "POOL_SMALL";
         demoService "B3" "POOL_BIG"; demoService "B4" "POOL_BIG";
         demoService "B5" "POOL_BIG"; demoService "ORPHAN" "POOL_GONE";
         {| node_id := "DB.APP.NB1"; node_type := notebook;
            node_data :=
              NbData {| nb_name := "NB1"; nb_database := "DB";
                        nb_schema := "APP"; nb_owner := "ADMIN";
                        nb_warehouse := None; nb_idleTimeout := Some 3600 |} |};
         {| node_id := "EAI_X"; node_type := eai;
            node_data :=
              IntegrationData {| eai_name := "EAI_X"; eai_type := "EXTERNAL_ACCESS";
                                 eai_enabled := true |} |} ];
     g_edges :=
       [ demoEdge "DB.APP.S1" "POOL_SMALL" "runs on";
         demoEdge "DB.APP.S2" "POOL_SMALL" "runs on";
         demoEdge "DB.APP.B1" "POOL_BIG" "runs on";
         demoEdge "DB.APP.B2" "POOL_BIG" "runs on";
         demoEdge "DB.APP.S1" "EAI_X" "uses";
         demoEdge "DB.APP.B1" "EAI_X" "uses";
         demoEdge "DB.APP.ORPHAN" "EAI_X" "uses" ] |}.

(** A graph whose one pool is named (and so identified) by a property name
    of [Object.prototype], with one service running on it. *)
Definition inheritedIdGraph : GraphData :=
  {| g_nodes := [ demoPool "constructor"; demoService "S1" "constructor" ];
     g_edges := [ demoEdge "DB.APP.S1" "constructor" "runs on" ] |}.

(** ** Further parts of the frontend *)

(** The [xPositions] object of [layoutNodesWithClusters], read by node
    type. *)
Definition xPositions (t : NodeType) : Z :=
  match t with
  | notebook => xPositions_notebook
  | service => xPositions_service
  | computePool => xPositions_computePool
  | eai => xPositions_eai
  end.

(** [node.position] *)
Definition position {A} (n : RFNode A) : Z * Z := (rf_x n, rf_y n).

(** The first version of [NetworkGraph.tsx]: one column per node type, no
    clusters, no collapse state, every edge rendered. *)
Module FirstVersion.
Definition ySpacing : Z := 200.

Definition xPositions (t : NodeType) : Z :=
  match t with
  | computePool => 800
  | service => 400
  | notebook => 0
  | eai => 1200
  end.

(** One of the four [forEach] loops of [layoutNodes]. *)
Definition column {A} (graphData : GraphData) (t : NodeType)
    : list (RFNode A) :=
  imap (λ index n,
          plainNode n (xPositions t) (yOffset + Z.of_nat index * ySpacing))
       (filter (λ n, is_type t n) (g_nodes graphData)).

Definition layoutNodes {A} (graphData : GraphData) : list (RFNode A) :=
  column graphData computePool ++ column graphData service
  ++ column graphData notebook ++ column graphData eai.

Definition createEdges (graphData : GraphData) : list RFEdge :=
  renderEdge <$> g_edges graphData.
End FirstVersion.

(** [ComputePoolNode]: what the node component reads from its data. *)

(** [(data.__serviceCount ?? 0) > 0] *)
Definition hasServices {A} (n : RFNode A) : bool :=
  (0 <? default 0 (rf_serviceCount n))%nat.

(** [data.__collapsed ?? false], as the condition the component branches
    on. *)
Definition nodeIsCollapsed {A} (n : RFNode A) : bool :=
  default false (rf_collapsed n).

(** The chevron button exists when [hasServices]; its [onClick] runs
    [data.__onToggleCollapse?.()]. The result is the collapse map after the
    click. *)
Definition clickCollapseButton
    (n : RFNode (gmap string bool → gmap string bool))
    (collapsedPools : gmap string bool) : gmap string bool :=
  if hasServices n then
    match rf_onToggleCollapse n with
    | Some onToggleCollapse => onToggleCollapse collapsedPools
    | None => collapsedPools
    end
  else collapsedPools.

(** The collapse map after a sequence of events, from the initial state. *)
Definition runEvents (events : list Event) : gmap string bool :=
  foldl handleEvent initialCollapsedPools events.

#[global] Instance Event_eq_dec : EqDecision Event.
Proof. solve_decision. Defined.

(** How often the toggle of [poolId] occurs among the events. *)
Definition toggleCount (poolId : string) (events : list Event) : nat :=
  length (filter (λ ev, ev = ToggleCollapse poolId) events).

(** [App]: which of its four screens it returns. The graph screen shows
    [data.nodes.length] and [data.edges.length] in the header and mounts
    [NetworkGraph] on [data]. *)
Inductive AppView :=
| LoadingView
| ErrorView (message : string)
| NoInfrastructureView
| GraphView (nodeCount edgeCount : nat) (data : GraphData).

Definition App (isLoading : bool) (error : option string)
    (data : option GraphData) : AppView :=
  if isLoading then LoadingView
  else match error with
       | Some message => ErrorView message
       | None =>
           match data with
           | None => NoInfrastructureView
           | Some d =>
               if (length (g_nodes d) =? 0)%nat then NoInfrastructureView
               else GraphView (length (g_nodes d)) (length (g_edges d)) d
           end
       end.

(** The nodes the layout can show under a collapse map: every node that is
    not a service, and the services that name an expanded pool. *)
Definition expandedPoolNames (g : GraphData) (m : gmap string bool)
    : list string :=
  (λ p, data_name (node_data p))
    <$> filter (λ p, isCollapsed m (node_id p) = false)
          (filter (λ n, is_type computePool n) (g_nodes g)).

Definition shown (g : GraphData) (m : gmap string bool) (n : GraphNode)
    : Prop :=
  node_type n ≠ service
  ∨ data_computePool (node_data n) ∈ Some <$> expandedPoolNames g m.

#[global] Instance shown_dec g m n : Decision (shown g m n).
Proof. unfold shown. apply _. Defined.

(** [m'] collapses every pool that [m] collapses. *)
Definition collapsesMore (m m' : gmap string bool) : Prop :=
  ∀ poolId, isCollapsed m poolId = true → isCollapsed m' poolId = true.


(** Two rendered nodes that do not collide: they stand in different
    columns, or the second one is lower. *)
Definition apart {A} (a b : RFNode A) : Prop :=
  rf_x a ≠ rf_x b ∨ rf_y a < rf_y b.

(** The graph node a rendered node shows: its id, type and data. *)
Definition sourceNode {A} (n : RFNode A) : GraphNode :=
  {| node_id := rf_id n; node_type := rf_type n; node_data := rf_data n |}.

(** The graph nodes one iteration renders. *)
Definition clusterSources (graphData : GraphData)
    (collapsedPools : gmap string bool) (pool : GraphNode)
    : list GraphNode :=
  pool
  :: (if isCollapsed collapsedPools (node_id pool) then []
      else poolServices graphData pool).

(** [NotebookNode]: the two optional lines of the card,
    [{data.warehouse && <div>Warehouse: {data.warehouse}</div>}] and
    [{data.idleTimeout && <div>Idle timeout: {data.idleTimeout}s</div>}]. *)

(** The values the two fields can hold. A number is modelled when it is an
    integer, as [NotebookData] has it. *)
Inductive JsValue :=
| JsNull
| JsNumber (z : Z)
| JsString (s : string).

(** What a JSX child expression evaluates to: a value, or an element (a
    [div]) with its own children, the pieces of literal text and the
    interpolated values in source order. *)
Inductive JsxChild :=
| ChildValue (v : JsValue)
| ChildElement (children : list JsValue).

(** What a child puts on the page: nothing, or a text. *)
Inductive PageText :=
| NoText
| Text (s : string).

(** JavaScript truthiness: [null], [0] and the empty string are falsy. *)
Definition truthy (v : JsValue) : bool :=
  match v with
  | JsNull => false
  | JsNumber z => negb (z =? 0)
  | JsString s => negb (bool_decide (s = ""))
  end.

(** [v && element]: the element when [v] is truthy, else [v] itself. *)
Definition jsAnd (v : JsValue) (element : JsxChild) : JsxChild :=
  if truthy v then element else ChildValue v.

(** [Number.MAX_SAFE_INTEGER], 2^53 - 1. *)
Definition maxSafeInteger : Z := 9007199254740991.

(** The text of a number. A number is a double: up to
    [Number.MAX_SAFE_INTEGER] in absolute value every integer is one and
    prints as its decimal digits, with a minus sign when negative. Beyond
    that not every integer is a double, and from 10^21 the text is in
    exponent form; this range is not modelled ([None]). *)
Definition numberToString (z : Z) : option string :=
  if bool_decide (Z.abs z ≤ maxSafeInteger) then Some (pretty z) else None.

(** [{v}] inside the text of an element: no text for [null]. *)
Definition interpolate (v : JsValue) : option string :=
  match v with
  | JsNull => Some ""
  | JsNumber z => numberToString z
  | JsString s => Some s
  end.

(** The text of an element: the texts of its children, joined. *)
Fixpoint elementText (children : list JsValue) : option string :=
  match children with
  | [] => Some ""
  | v :: rest =>
      s ← interpolate v; t ← elementText rest; Some (s +:+ t)
  end.

(** The text React puts on the page for a child: nothing for [null] and
    for the empty string, the digits for a number, the text of an element.
    [None] when a number outside the modelled range has to be printed. *)
Definition renderedText (c : JsxChild) : option PageText :=
  match c with
  | ChildValue JsNull => Some NoText
  | ChildValue (JsNumber z) => Text <$> numberToString z
  | ChildValue (JsString s) =>
      Some (if bool_decide (s = "") then NoText else Text s)
  | ChildElement children => Text <$> elementText children
  end.

(** A field of type [string | null] or [number | null] as a value. *)
Definition stringOrNull (o : option string) : JsValue :=
  match o with
  | None => JsNull
  | Some s => JsString s
  end.

Definition numberOrNull (o : option Z) : JsValue :=
  match o with
  | None => JsNull
  | Some z => JsNumber z
  end.

Definition warehouseLine (data : NotebookData) : JsxChild :=
  let warehouse := stringOrNull (nb_warehouse data) in
  jsAnd warehouse (ChildElement [JsString "Warehouse: "; warehouse]).

Definition idleTimeoutLine (data : NotebookData) : JsxChild :=
  let idleTimeout := numberOrNull (nb_idleTimeout data) in
  jsAnd idleTimeout
    (ChildElement [JsString "Idle timeout: "; idleTimeout; JsString "s"]).

(** * Properties *)

(** Decidable facts about concrete data. *)
Ltac decide_by_computation :=
  match goal with
  | |- ?P => apply (bool_decide_unpack P); vm_compute; exact I
  end.

(** Membership in a list literal. *)
Ltac elem_of_list :=
  repeat first [apply list_elem_of_here | apply list_elem_of_further].

(** ** The layout of the demo graph

    [POOL_BIG] has five services and is laid out first: its cluster is
    350 high, the pool node sits at 50 + 350/2 - 40 = 185, and the cursor
    moves to 50 + 350 + 40 = 440 for [POOL_SMALL]. The service of the
    missing pool is not rendered. *)
Example demo_layout_expanded :
  coordinates <$> lr_nodes (layoutNodesWithClusters demoGraph ∅ toggleHandle)
  = [ ("POOL_BIG", (750, 185)); ("DB.APP.B1", (400, 50));
      ("DB.APP.B2", (400, 120)); ("DB.APP.B3", (400, 190));
      ("DB.APP.B4", (400, 260)); ("DB.APP.B5", (400, 330));
      ("POOL_SMALL", (750, 470)); ("DB.APP.S1", (400, 440));
      ("DB.APP.S2", (400, 510)); ("DB.APP.NB1", (0, 50));
      ("EAI_X", (1100, 50)) ].
Proof. by vm_compute. Qed.

(** With [POOL_BIG] collapsed its cluster is 80 high, its services are
    hidden, and the edges that touch them are filtered out; the edge of
    the unrendered service remains. *)
Example demo_layout_collapsed :
  let r := layoutNodesWithClusters demoGraph {["POOL_BIG" := true]}
             toggleHandle in
  coordinates <$> lr_nodes r
  = [ ("POOL_BIG", (750, 50)); ("POOL_SMALL", (750, 200));
      ("DB.APP.S1", (400, 170)); ("DB.APP.S2", (400, 240));
      ("DB.APP.NB1", (0, 50)); ("EAI_X", (1100, 50)) ]
  ∧ re_id <$> createEdges demoGraph (lr_hiddenServiceIds r)
    = [ "DB.APP.S1->POOL_SMALL"; "DB.APP.S2->POOL_SMALL";
        "DB.APP.S1->EAI_X"; "DB.APP.ORPHAN->EAI_X" ].
Proof. by vm_compute. Qed.

(** ** Grouping: what [servicesByPool.get] returns *)

Lemma group_service_lookup mp svc k :
  group_service mp svc !! k =
    if inPool k svc then Some (default [] (mp !! k) ++ [svc]) else mp !! k.
Proof.
  unfold group_service, inPool.
  destruct (decide (data_computePool (node_data svc) = k)) as [Heq|Hne].
  - rewrite (bool_decide_eq_true_2 _ Heq). subst k.
    rewrite lookup_insert_eq. case_bool_decide as Hs; [done|].
    apply eq_None_not_Some in Hs. by rewrite lookup_insert_eq, Hs.
  - rewrite (bool_decide_eq_false_2 _ Hne).
    rewrite lookup_insert_ne by done.
    case_bool_decide; [done|]. by rewrite lookup_insert_ne.
Qed.

Lemma foldl_group_service_lookup l mp k :
  foldl group_service mp l !! k =
    match filter (λ s, inPool k s) l with
    | [] => mp !! k
    | l' => Some (default [] (mp !! k) ++ l')
    end.
Proof.
  revert mp. induction l as [|s l IH]; intros mp; [done|].
  cbn [foldl]. rewrite IH, group_service_lookup, filter_cons.
  destruct (inPool k s) eqn:Hs; cbn.
  - rewrite decide_True by done.
    destruct (filter _ l); [done|]. by rewrite <- (assoc_L (++)).
  - by rewrite decide_False by tauto.
Qed.

Lemma poolServices_filter g pool :
  poolServices g pool =
    filter (λ s, inPool (Some (data_name (node_data pool))) s) (services g).
Proof.
  unfold poolServices, servicesByPool.
  rewrite foldl_group_service_lookup, lookup_empty. fold (services g).
  by destruct (filter _ (services g)).
Qed.

Lemma serviceCount_length g pool :
  serviceCount g pool = length (poolServices g pool).
Proof.
  unfold serviceCount, poolServices.
  by destruct (servicesByPool g !! _).
Qed.

Lemma poolServices_service g pool s :
  s ∈ poolServices g pool →
  s ∈ g_nodes g ∧ node_type s = service
  ∧ data_computePool (node_data s) = Some (data_name (node_data pool)).
Proof.
  rewrite poolServices_filter. unfold services, inPool, is_type.
  rewrite !list_elem_of_filter, !bool_decide_spec. tauto.
Qed.

Lemma poolServices_complete g pool s :
  s ∈ g_nodes g → node_type s = service →
  data_computePool (node_data s) = Some (data_name (node_data pool)) →
  s ∈ poolServices g pool.
Proof.
  intros. rewrite poolServices_filter. unfold services, inPool, is_type.
  rewrite !list_elem_of_filter, !bool_decide_spec. tauto.
Qed.

(** ** The stable descending sort *)

Section SortDescFacts.
Context {T : Type} (key : T → nat).

Lemma insert_desc_perm x l : insert_desc key x l ≡ₚ x :: l.
Proof.
  induction l as [|y l IH]; cbn; [done|].
  destruct (key y <=? key x)%nat; [done|].
  rewrite IH. apply Permutation_swap.
Qed.

Lemma sort_desc_perm l : sort_desc key l ≡ₚ l.
Proof.
  induction l as [|x l IH]; cbn; [done|].
  by rewrite insert_desc_perm, IH.
Qed.

Lemma insert_desc_sorted x l :
  StronglySorted (λ a b, (key b ≤ key a)%nat) l →
  StronglySorted (λ a b, (key b ≤ key a)%nat) (insert_desc key x l).
Proof.
  induction 1 as [|y l Hl IH Hy]; cbn.
  - repeat constructor.
  - destruct (Nat.leb_spec (key y) (key x)) as [Hle|Hlt].
    + constructor; [by constructor|].
      constructor; [done|].
      eapply Forall_impl; [exact Hy|]. cbn. lia.
    + constructor; [done|].
      rewrite insert_desc_perm. constructor; [lia|done].
Qed.

Lemma sort_desc_sorted l :
  StronglySorted (λ a b, (key b ≤ key a)%nat) (sort_desc key l).
Proof.
  induction l; cbn; [constructor|by apply insert_desc_sorted].
Qed.

(** Stability: elements with equal keys keep their input order. *)
Lemma insert_desc_stable c x l :
  filter (λ a, key a = c) (insert_desc key x l)
  = filter (λ a, key a = c) (x :: l).
Proof.
  induction l as [|y l IH]; cbn; [done|].
  destruct (Nat.leb_spec (key y) (key x)) as [Hle|Hlt]; [done|].
  rewrite (filter_cons _ y), IH, !filter_cons.
  repeat case_decide; try done; lia.
Qed.

Lemma sort_desc_stable c l :
  filter (λ a, key a = c) (sort_desc key l) = filter (λ a, key a = c) l.
Proof.
  induction l as [|x l IH]; [done|].
  change (sort_desc key (x :: l)) with (insert_desc key x (sort_desc key l)).
  by rewrite insert_desc_stable, !filter_cons, IH.
Qed.

Lemma sort_desc_elem_of x l : x ∈ sort_desc key l ↔ x ∈ l.
Proof. by rewrite sort_desc_perm. Qed.

End SortDescFacts.

Lemma computePools_elem_of g p :
  p ∈ computePools g ↔ p ∈ g_nodes g ∧ node_type p = computePool.
Proof.
  unfold computePools, is_type.
  by rewrite sort_desc_elem_of, list_elem_of_filter, bool_decide_spec, (comm and).
Qed.

(** ** The cluster loop *)

Lemma clusterHeight_floor g m pool : 80 ≤ clusterHeight g m pool.
Proof. unfold clusterHeight. lia. Qed.

(** The height is even, so [clusterHeight / 2] is exact. *)
Lemma clusterHeight_even g m pool :
  2 * (clusterHeight g m pool / 2) = clusterHeight g m pool.
Proof.
  unfold clusterHeight, serviceYSpacing.
  set (k := Z.of_nat _).
  destruct (Z.max_spec 80 (k * 70)) as [[_ ->]|[_ ->]].
  - replace (k * 70) with (k * 35 * 2) by lia. rewrite Z.div_mul by done. lia.
  - done.
Qed.

Lemma clusterHeight_collapsed g m pool :
  isCollapsed m (node_id pool) = true → clusterHeight g m pool = 80.
Proof.
  unfold clusterHeight, visibleServiceCount. by intros ->.
Qed.

Section LoopFacts.
Context {A : Type}.
Variable g : GraphData.
Variable m : gmap string bool.
Variable t : string → A.

Lemma placeCluster_nodes (st : LoopState A) pool :
  st_nodes (placeCluster g m t st pool)
  = st_nodes st ++ clusterOf g m t pool (st_currentY st).
Proof.
  unfold placeCluster, clusterOf. cbn.
  destruct (isCollapsed m (node_id pool)).
  - done.
  - by rewrite <- (assoc_L (++)).
Qed.

Lemma foldl_hidden_add (h : gset string) (l : list GraphNode) :
  foldl (λ h s, h ∪ {[node_id s]}) h l = h ∪ list_to_set (node_id <$> l).
Proof.
  revert h. induction l as [|s l IH]; intros h; cbn.
  - set_solver.
  - rewrite IH. set_solver.
Qed.

Lemma placeCluster_hidden (st : LoopState A) pool :
  st_hiddenServiceIds (placeCluster g m t st pool)
  = st_hiddenServiceIds st ∪ list_to_set (hiddenOf g m pool).
Proof.
  unfold placeCluster, hiddenOf. cbn.
  destruct (isCollapsed m (node_id pool)).
  - apply foldl_hidden_add.
  - set_solver.
Qed.

Lemma placeCluster_currentY (st : LoopState A) pool :
  st_currentY (placeCluster g m t st pool)
  = st_currentY st + (clusterHeight g m pool + clusterSpacing).
Proof. done. Qed.

Lemma foldl_placeCluster_nodes pools (st : LoopState A) :
  st_nodes (foldl (placeCluster g m t) st pools)
  = st_nodes st ++ clusterNodes g m t pools (st_currentY st).
Proof.
  revert st. induction pools as [|p pools IH]; intros st; cbn [foldl].
  - cbn. by rewrite (right_id_L [] (++)).
  - rewrite IH, placeCluster_nodes, placeCluster_currentY.
    cbn [clusterNodes]. by rewrite <- (assoc_L (++)).
Qed.

Lemma foldl_placeCluster_hidden pools (st : LoopState A) :
  st_hiddenServiceIds (foldl (placeCluster g m t) st pools)
  = st_hiddenServiceIds st ∪ list_to_set (pools ≫= hiddenOf g m).
Proof.
  revert st. induction pools as [|p pools IH]; intros st; cbn [foldl].
  - cbn. set_solver.
  - rewrite IH, placeCluster_hidden. cbn. set_solver.
Qed.

End LoopFacts.

Lemma layout_nodes {A} g m (t : string → A) :
  lr_nodes (layoutNodesWithClusters g m t)
  = clusterNodes g m t (computePools g) yOffset
    ++ columnNodes g notebook xPositions_notebook notebookYSpacing
    ++ columnNodes g eai xPositions_eai eaiYSpacing.
Proof.
  unfold layoutNodesWithClusters. cbn [lr_nodes].
  by rewrite foldl_placeCluster_nodes.
Qed.

Lemma layout_hidden {A} g m (t : string → A) :
  lr_hiddenServiceIds (layoutNodesWithClusters g m t)
  = list_to_set (computePools g ≫= hiddenOf g m).
Proof.
  unfold layoutNodesWithClusters. cbn [lr_hiddenServiceIds].
  rewrite foldl_placeCluster_hidden. cbn. set_solver.
Qed.

(** ** Cluster spans and the rendered pool nodes *)

Section SpanFacts.
Context {A : Type}.
Variable g : GraphData.
Variable m : gmap string bool.
Variable t : string → A.

Lemma zip_spans pools (st : LoopState A) :
  zip_with
    (λ pool st,
       {| span_pool := pool; span_top := st_currentY st;
          span_bottom := st_currentY st + clusterHeight g m pool |})
    pools (loopStates g m t st pools)
  = spansFrom g m pools (st_currentY st).
Proof.
  revert st. induction pools as [|p pools IH]; intros st; cbn; [done|].
  by rewrite IH.
Qed.

Lemma clusterSpans_spansFrom :
  clusterSpans g m t = spansFrom g m (computePools g) yOffset.
Proof. unfold clusterSpans. by rewrite zip_spans. Qed.

Lemma spansFrom_lower pools y :
  Forall (λ s, y ≤ span_top s) (spansFrom g m pools y).
Proof.
  revert y. induction pools as [|p pools IH]; intros y; cbn; constructor.
  - cbn. lia.
  - eapply Forall_impl; [apply IH|]. cbn. intros s.
    pose proof (clusterHeight_floor g m p). unfold clusterSpacing. lia.
Qed.

Lemma spansFrom_height pools y :
  Forall (λ s, span_bottom s - span_top s = clusterHeight g m (span_pool s)
               ∧ 80 ≤ span_bottom s - span_top s)
    (spansFrom g m pools y).
Proof.
  revert y. induction pools as [|p pools IH]; intros y; cbn; constructor.
  - cbn. pose proof (clusterHeight_floor g m p). lia.
  - apply IH.
Qed.

Lemma spansFrom_consecutive pools y :
  Sorted (λ a b, span_top b = span_bottom a + clusterSpacing
                 ∧ span_top a + 120 ≤ span_top b)
    (spansFrom g m pools y).
Proof.
  revert y. induction pools as [|p pools IH]; intros y; cbn; constructor.
  - apply IH.
  - destruct pools as [|q pools]; cbn; constructor. cbn.
    pose proof (clusterHeight_floor g m p). unfold clusterSpacing. lia.
Qed.

Lemma spansFrom_disjoint pools y :
  StronglySorted (λ a b, span_bottom a < span_top b) (spansFrom g m pools y).
Proof.
  revert y. induction pools as [|p pools IH]; intros y; cbn; constructor.
  - apply IH.
  - eapply Forall_impl; [apply spansFrom_lower|]. cbn. intros s.
    unfold clusterSpacing. lia.
Qed.

Lemma poolNode_y_bounds pool y :
  y ≤ rf_y (poolNode g m t pool y)
  ∧ rf_y (poolNode g m t pool y) < y + clusterHeight g m pool.
Proof.
  cbn. pose proof (clusterHeight_floor g m pool) as Hf.
  pose proof (clusterHeight_even g m pool) as He.
  destruct (Z.ltb_spec 0 (clusterHeight g m pool)); lia.
Qed.

Lemma poolNodesFrom_lower pools y :
  Forall (λ n, y ≤ rf_y n) (poolNodesFrom g m t pools y).
Proof.
  revert y. induction pools as [|p pools IH]; intros y; cbn [poolNodesFrom];
    constructor.
  - apply poolNode_y_bounds.
  - eapply Forall_impl; [apply IH|]. cbn beta. intros n.
    pose proof (clusterHeight_floor g m p). unfold clusterSpacing. lia.
Qed.

Lemma poolNodesFrom_increasing pools y :
  StronglySorted (λ a b, rf_y a < rf_y b) (poolNodesFrom g m t pools y).
Proof.
  revert y. induction pools as [|p pools IH]; intros y; cbn [poolNodesFrom];
    constructor.
  - apply IH.
  - eapply Forall_impl; [apply poolNodesFrom_lower|]. cbn beta. intros n.
    pose proof (poolNode_y_bounds p y). unfold clusterSpacing. lia.
Qed.

Lemma plainNodes_no_pool (l : list GraphNode) x (fy : nat → Z) :
  Forall (λ s, node_type s ≠ computePool) l →
  filter (λ n : RFNode A, isPoolNode n)
    (imap (λ i s, plainNode s x (fy i)) l) = [].
Proof.
  intros Hl. revert fy. induction Hl as [|s l Hs _ IH]; intros fy; [done|].
  rewrite imap_cons, filter_cons_False.
  - apply (IH (fy ∘ S)).
  - unfold isPoolNode. cbn. by rewrite bool_decide_spec.
Qed.

Lemma serviceNodes_no_pool pool y :
  filter (λ n : RFNode A, isPoolNode n) (serviceNodes g pool y) = [].
Proof.
  apply plainNodes_no_pool, Forall_forall. intros s Hs.
  apply poolServices_service in Hs as (_ & -> & _). done.
Qed.

Lemma columnNodes_no_pool ty x spacing :
  ty ≠ computePool →
  filter (λ n : RFNode A, isPoolNode n) (columnNodes g ty x spacing) = [].
Proof.
  intros Hty. apply plainNodes_no_pool, Forall_forall. intros s Hs.
  apply list_elem_of_filter in Hs as [Hs _].
  unfold is_type in Hs. apply bool_decide_unpack in Hs. congruence.
Qed.

Lemma clusterNodes_pool_nodes pools y :
  Forall (λ p, node_type p = computePool) pools →
  filter (λ n : RFNode A, isPoolNode n) (clusterNodes g m t pools y)
  = poolNodesFrom g m t pools y.
Proof.
  intros Hp. revert y. induction Hp as [|p pools Hty _ IH]; intros y; [done|].
  cbn [clusterNodes poolNodesFrom]. unfold clusterOf.
  rewrite filter_app, filter_cons_True.
  - rewrite IH. cbn [app]. f_equal.
    destruct (isCollapsed m (node_id p)); [done|].
    by rewrite serviceNodes_no_pool.
  - unfold isPoolNode. cbn. by rewrite bool_decide_spec.
Qed.

Lemma computePools_type :
  Forall (λ p, node_type p = computePool) (computePools g).
Proof.
  apply Forall_forall. intros p Hp.
  apply computePools_elem_of in Hp. tauto.
Qed.

Lemma poolNodesOf_layout :
  poolNodesOf (layoutNodesWithClusters g m t)
  = poolNodesFrom g m t (computePools g) yOffset.
Proof.
  unfold poolNodesOf. rewrite layout_nodes, !filter_app.
  rewrite !columnNodes_no_pool by done.
  rewrite clusterNodes_pool_nodes by apply computePools_type.
  by rewrite !(right_id_L [] (++)).
Qed.

(** The rendered pool node of each span. *)
Lemma poolNodesFrom_spans pools y :
  Forall2
    (λ n s, rf_id n = node_id (span_pool s)
            ∧ rf_y n = span_top s + ((span_bottom s - span_top s) / 2 - 40))
    (poolNodesFrom g m t pools y) (spansFrom g m pools y).
Proof.
  revert y. induction pools as [|p pools IH]; intros y;
    cbn [poolNodesFrom spansFrom]; constructor; [|apply IH].
  cbn. split; [done|].
  pose proof (clusterHeight_floor g m p).
  destruct (Z.ltb_spec 0 (clusterHeight g m p)); [|lia].
  do 3 f_equal. lia.
Qed.
End SpanFacts.

Lemma StronglySorted_lt_NoDup (l : list Z) :
  StronglySorted Z.lt l → NoDup l.
Proof.
  induction 1 as [|x l _ IH Hx]; constructor; [|done].
  intros Hin. rewrite Forall_forall in Hx. specialize (Hx _ Hin). lia.
Qed.

(** C10. The vertical spans of the clusters are pairwise disjoint: every
    cluster is at least 80 high whatever its collapse state, each cluster
    starts 40 below the end of the one before it, the cursor grows by at
    least 120 per pool, and the rendered pool nodes (one per span, centred
    in it) have strictly increasing, hence pairwise different, y
    coordinates. *)
Theorem cluster_spans_disjoint {A} (g : GraphData) (m : gmap string bool)
    (t : string → A) :
  let spans := clusterSpans g m t in
  let poolNodes := poolNodesOf (layoutNodesWithClusters g m t) in
  Forall (λ s, span_bottom s - span_top s = clusterHeight g m (span_pool s)
               ∧ 80 ≤ span_bottom s - span_top s) spans
  ∧ Sorted (λ a b, span_top b = span_bottom a + 40
                   ∧ span_top a + 120 ≤ span_top b) spans
  ∧ StronglySorted (λ a b, span_bottom a < span_top b) spans
  ∧ Forall2
      (λ n s, rf_id n = node_id (span_pool s)
              ∧ rf_y n = span_top s + ((span_bottom s - span_top s) / 2 - 40))
      poolNodes spans
  ∧ StronglySorted (λ a b, rf_y a < rf_y b) poolNodes
  ∧ NoDup (rf_y <$> poolNodes).
Proof.
  cbn zeta. rewrite clusterSpans_spansFrom, poolNodesOf_layout.
  split; [apply spansFrom_height|].
  split; [apply spansFrom_consecutive|].
  split; [apply spansFrom_disjoint|].
  split; [apply poolNodesFrom_spans|].
  split; [apply poolNodesFrom_increasing|].
  apply StronglySorted_lt_NoDup.
  eapply StronglySorted_fmap; [|apply poolNodesFrom_increasing]. done.
Qed.

(** ** Collapsed pools and the cursor *)

(** C6, as the code has it. A collapsed pool counts zero visible services,
    so its cluster is exactly the floor of 80 high (not zero): the cursor
    advances past it by 80 plus the gap of 40, and the iteration pushes
    the pool node alone. *)
Theorem collapsed_pool_floor_height {A} (g : GraphData)
    (m : gmap string bool) (t : string → A) (st : LoopState A)
    (pool : GraphNode) :
  isCollapsed m (node_id pool) = true →
  visibleServiceCount g m pool = 0%nat
  ∧ clusterHeight g m pool = 80
  ∧ st_currentY (placeCluster g m t st pool) = st_currentY st + 80 + 40
  ∧ st_nodes (placeCluster g m t st pool)
    = st_nodes st ++ [poolNode g m t pool (st_currentY st)].
Proof.
  intros Hc. split_and!.
  - unfold visibleServiceCount. by rewrite Hc.
  - by apply clusterHeight_collapsed.
  - rewrite placeCluster_currentY, clusterHeight_collapsed by done.
    unfold clusterSpacing. lia.
  - rewrite placeCluster_nodes. unfold clusterOf. by rewrite Hc.
Qed.

Lemma collapsed_pool_floor_height_witness :
  isCollapsed {["POOL_BIG" := true]} (node_id (demoPool "POOL_BIG")) = true
  ∧ clusterHeight demoGraph {["POOL_BIG" := true]} (demoPool "POOL_BIG") = 80
  ∧ st_currentY
      (placeCluster demoGraph {["POOL_BIG" := true]} toggleHandle
         initialLoopState (demoPool "POOL_BIG")) = 50 + 80 + 40.
Proof.
  split; [reflexivity|].
  pose proof (collapsed_pool_floor_height demoGraph {["POOL_BIG" := true]}
                toggleHandle initialLoopState (demoPool "POOL_BIG")
                eq_refl) as (_ & Hh & Hy & _).
  split; [exact Hh | exact Hy].
Defined.

(** C6 as stated fails: past the collapsed pool [POOL_BIG] the cursor
    moves from 50 to 170, not by the gap of 40 alone, and the pool's
    cluster spans 50..130. *)
Lemma collapsed_pool_zero_height_counterexample :
  isCollapsed {["POOL_BIG" := true]} (node_id (demoPool "POOL_BIG")) = true
  ∧ (span_top <$> clusterSpans demoGraph {["POOL_BIG" := true]} toggleHandle)
    = [50; 170]
  ∧ (span_bottom <$> clusterSpans demoGraph {["POOL_BIG" := true]}
                       toggleHandle) = [130; 310]
  ∧ ¬ (st_currentY
         (placeCluster demoGraph {["POOL_BIG" := true]} toggleHandle
            initialLoopState (demoPool "POOL_BIG"))
       = st_currentY (initialLoopState (A := gmap string bool → gmap string bool))
         + 0 + clusterSpacing).
Proof.
  split; [reflexivity|]. split; [by vm_compute|]. split; [by vm_compute|].
  vm_compute. discriminate.
Qed.

(** ** The layout reads the collapse map through [isCollapsed] only *)

Lemma placeCluster_ext {A} g m1 m2 (t : string → A) st pool :
  isCollapsed m1 (node_id pool) = isCollapsed m2 (node_id pool) →
  placeCluster g m1 t st pool = placeCluster g m2 t st pool.
Proof.
  intros H. unfold placeCluster, poolNode, clusterHeight, visibleServiceCount.
  by rewrite H.
Qed.

Lemma layout_ext {A} g m1 m2 (t : string → A) :
  (∀ p, p ∈ computePools g →
        isCollapsed m1 (node_id p) = isCollapsed m2 (node_id p)) →
  layoutNodesWithClusters g m1 t = layoutNodesWithClusters g m2 t.
Proof.
  intros H. unfold layoutNodesWithClusters.
  assert (Hfold : ∀ pools st, pools ⊆ computePools g →
    foldl (placeCluster g m1 t) st pools
    = foldl (placeCluster g m2 t) st pools).
  { induction pools as [|p pools IH]; intros st Hsub; [done|]. cbn [foldl].
    rewrite (placeCluster_ext g m1 m2) by (apply H, Hsub; left).
    apply IH. set_solver. }
  by rewrite Hfold.
Qed.

Lemma isCollapsed_toggle m p q :
  isCollapsed (togglePoolCollapse m p) q
  = if decide (p = q) then negb (isCollapsed m p) else isCollapsed m q.
Proof.
  unfold isCollapsed, togglePoolCollapse. rewrite lookup_insert.
  by case_decide; subst.
Qed.

Lemma isCollapsed_toggle_twice m p q :
  isCollapsed (togglePoolCollapse (togglePoolCollapse m p) p) q
  = isCollapsed m q.
Proof.
  rewrite !isCollapsed_toggle. case_decide; [|done]. subst.
  rewrite decide_True by done. apply negb_involutive.
Qed.

(** C7. Toggling a pool id twice restores every pool's effective state,
    and with it the whole layout result (positions, flags, hidden ids)
    and the filtered edges. *)
Theorem toggle_twice_restores (g : GraphData) (m : gmap string bool)
    (p : string) :
  let m'' := togglePoolCollapse (togglePoolCollapse m p) p in
  (∀ q, isCollapsed m'' q = isCollapsed m q)
  ∧ (∀ A (t : string → A),
       layoutNodesWithClusters g m'' t = layoutNodesWithClusters g m t
       ∧ createEdges g (lr_hiddenServiceIds (layoutNodesWithClusters g m'' t))
         = createEdges g (lr_hiddenServiceIds (layoutNodesWithClusters g m t)))
  ∧ render g m'' = render g m.
Proof.
  cbn zeta.
  assert (Hl : ∀ A (t : string → A),
    layoutNodesWithClusters g
      (togglePoolCollapse (togglePoolCollapse m p) p) t
    = layoutNodesWithClusters g m t).
  { intros A t. apply layout_ext. intros q _. apply isCollapsed_toggle_twice. }
  split; [apply isCollapsed_toggle_twice|].
  split.
  - intros A t. by rewrite Hl.
  - unfold render. by rewrite Hl.
Qed.

(** The stored map itself need not come back: an unseen id ends up
    recorded as [false]. *)
Example toggle_twice_map :
  togglePoolCollapse (togglePoolCollapse ∅ "POOL_BIG") "POOL_BIG"
  = {["POOL_BIG" := false]}.
Proof. unfold togglePoolCollapse. by rewrite insert_insert_eq. Qed.

(** ** Determinism *)

Lemma coordinates_clusterNodes {A B} g m (t1 : string → A) (t2 : string → B)
    pools y :
  coordinates <$> clusterNodes g m t1 pools y
  = coordinates <$> clusterNodes g m t2 pools y.
Proof.
  revert y. induction pools as [|p pools IH]; intros y; [done|].
  cbn [clusterNodes]. rewrite !fmap_app, IH. f_equal.
  unfold clusterOf. rewrite !fmap_cons. f_equal.
  destruct (isCollapsed m (node_id p)); [done|].
  unfold serviceNodes. by rewrite !fmap_imap.
Qed.

Lemma coordinates_layout {A B} g m (t1 : string → A) (t2 : string → B) :
  coordinates <$> lr_nodes (layoutNodesWithClusters g m t1)
  = coordinates <$> lr_nodes (layoutNodesWithClusters g m t2).
Proof.
  rewrite !layout_nodes, !fmap_app.
  rewrite (coordinates_clusterNodes g m t1 t2).
  unfold columnNodes. by rewrite !fmap_imap.
Qed.

(** C2. Two runs of the layout on identical graph data and identical
    collapse maps (whatever toggle callbacks they are handed) give every
    node the same coordinates, hide the same service ids and keep the same
    edges. *)
Theorem layout_deterministic {A B} (g1 g2 : GraphData)
    (m1 m2 : gmap string bool) (t1 : string → A) (t2 : string → B) :
  g1 = g2 → m1 = m2 →
  coordinates <$> lr_nodes (layoutNodesWithClusters g1 m1 t1)
  = coordinates <$> lr_nodes (layoutNodesWithClusters g2 m2 t2)
  ∧ lr_hiddenServiceIds (layoutNodesWithClusters g1 m1 t1)
    = lr_hiddenServiceIds (layoutNodesWithClusters g2 m2 t2)
  ∧ createEdges g1 (lr_hiddenServiceIds (layoutNodesWithClusters g1 m1 t1))
    = createEdges g2 (lr_hiddenServiceIds (layoutNodesWithClusters g2 m2 t2)).
Proof.
  intros -> ->. split; [apply coordinates_layout|].
  rewrite !layout_hidden. done.
Qed.

Lemma layout_deterministic_witness :
  coordinates <$> lr_nodes
    (layoutNodesWithClusters demoGraph {["POOL_BIG" := true]} toggleHandle)
  = coordinates <$> lr_nodes
      (layoutNodesWithClusters demoGraph {["POOL_BIG" := true]} (λ _, tt)).
Proof.
  exact (proj1 (layout_deterministic demoGraph demoGraph
                  {["POOL_BIG" := true]} {["POOL_BIG" := true]}
                  toggleHandle (λ _, tt) eq_refl eq_refl)).
Defined.

(** ** Order of the clusters *)

Lemma spansFrom_pools g m pools y :
  span_pool <$> spansFrom g m pools y = pools.
Proof.
  revert y. induction pools as [|p pools IH]; intros y; cbn; [done|].
  by rewrite IH.
Qed.

Lemma spansFrom_ordered g m pools y :
  StronglySorted (λ a b, (serviceCount g b ≤ serviceCount g a)%nat) pools →
  StronglySorted
    (λ a b, span_top a < span_top b
            ∧ (serviceCount g (span_pool b) ≤ serviceCount g (span_pool a))%nat)
    (spansFrom g m pools y).
Proof.
  intros Hs. revert y. induction Hs as [|p pools _ IH Hp]; intros y; cbn;
    constructor; [apply IH|].
  apply Forall_and. split.
  - eapply Forall_impl; [apply spansFrom_lower|]. cbn. intros s.
    pose proof (clusterHeight_floor g m p). unfold clusterSpacing. lia.
  - apply (Forall_fmap span_pool
             (λ q, (serviceCount g q ≤ serviceCount g p)%nat)).
    by rewrite spansFrom_pools.
Qed.

(** C4. The clusters are those of the graph's compute pools, laid out top
    to bottom in non-increasing order of the pools' total service counts
    (the count ignores the collapse state); pools with equal counts keep
    their order in the input node list; the first cluster starts at the
    top offset and belongs to a pool of maximal count; the rendered pool
    nodes follow the same order. In particular, of two pools with 5 and 2
    services, the one with 5 gets the cluster that starts at the top
    offset 50, whichever comes first in the input. *)
Theorem pools_ordered_by_service_count {A} (g : GraphData)
    (m : gmap string bool) (t : string → A) :
  let pools := filter (λ n, is_type computePool n) (g_nodes g) in
  let spans := clusterSpans g m t in
  let poolNodes := poolNodesOf (layoutNodesWithClusters g m t) in
  span_pool <$> spans ≡ₚ pools
  ∧ (∀ p, serviceCount g p
          = length (filter (λ s, inPool (Some (data_name (node_data p))) s)
                      (services g)))
  ∧ StronglySorted
      (λ a b, span_top a < span_top b
              ∧ (serviceCount g (span_pool b)
                 ≤ serviceCount g (span_pool a))%nat) spans
  ∧ (∀ c, filter (λ p, serviceCount g p = c) (span_pool <$> spans)
          = filter (λ p, serviceCount g p = c) pools)
  ∧ match spans with
    | [] => pools = []
    | s :: _ =>
        span_top s = yOffset
        ∧ Forall (λ p, (serviceCount g p ≤ serviceCount g (span_pool s))%nat)
            pools
    end
  ∧ Forall2
      (λ n s, rf_id n = node_id (span_pool s)
              ∧ rf_serviceCount n = Some (serviceCount g (span_pool s))
              ∧ rf_y n = span_top s + ((span_bottom s - span_top s) / 2 - 40))
      poolNodes spans
  ∧ StronglySorted (λ a b, rf_y a < rf_y b) poolNodes
  ∧ (∀ p q, pools = [p; q] ∨ pools = [q; p] →
            serviceCount g p = 5%nat → serviceCount g q = 2%nat →
            (λ s, (span_pool s, span_top s)) <$> spans
            = [(p, 50); (q, 50 + clusterHeight g m p + 40)]).
Proof.
  cbn zeta. rewrite clusterSpans_spansFrom, poolNodesOf_layout.
  set (pools := filter (λ n, is_type computePool n) (g_nodes g)).
  assert (Hperm : computePools g ≡ₚ pools) by apply sort_desc_perm.
  assert (Hsorted : StronglySorted
            (λ a b, (serviceCount g b ≤ serviceCount g a)%nat)
            (computePools g)) by apply sort_desc_sorted.
  split_and!.
  - by rewrite spansFrom_pools.
  - intros p. by rewrite serviceCount_length, poolServices_filter.
  - by apply spansFrom_ordered.
  - intros c. rewrite spansFrom_pools. apply sort_desc_stable.
  - destruct (computePools g) as [|p0 ps] eqn:Hcp; cbn.
    + symmetry in Hperm. by apply Permutation_nil_r in Hperm.
    + split; [done|]. rewrite <- Hperm.
      apply StronglySorted_inv in Hsorted as [_ Hall].
      constructor; [lia|done].
  - generalize (computePools g) yOffset. intros ps.
    induction ps as [|p ps IH]; intros y; cbn [poolNodesFrom spansFrom];
      constructor; [|apply IH].
    cbn. split_and!; [done|by rewrite serviceCount_length|].
    pose proof (clusterHeight_floor g m p).
    destruct (Z.ltb_spec 0 (clusterHeight g m p)); [|lia].
    do 3 f_equal. lia.
  - apply poolNodesFrom_increasing.
  - intros p q Hpq Hp Hq.
    assert (Hcp : computePools g = [p; q]).
    { unfold computePools. fold pools.
      destruct Hpq as [-> | ->]; cbn; rewrite Hp, Hq; done. }
    rewrite Hcp. cbn. unfold yOffset, clusterSpacing.
    do 3 f_equal. lia.
Qed.

Lemma pools_ordered_by_service_count_witness :
  (λ s, (node_id (span_pool s), span_top s))
    <$> clusterSpans demoGraph ∅ toggleHandle
  = [("POOL_BIG", 50); ("POOL_SMALL", 440)].
Proof.
  pose proof (pools_ordered_by_service_count demoGraph ∅ toggleHandle)
    as (_ & _ & _ & _ & _ & _ & _ & Hscenario).
  specialize (Hscenario (demoPool "POOL_BIG") (demoPool "POOL_SMALL")
                (or_intror eq_refl) eq_refl eq_refl).
  apply (f_equal (fmap (λ ps : GraphNode * Z, (node_id ps.1, ps.2))))
    in Hscenario.
  rewrite <- list_fmap_compose in Hscenario. exact Hscenario.
Defined.

(** ** Pools the collapse map does not mention *)

Lemma clusterNodes_span {A} g m (t : string → A) pools y s :
  s ∈ spansFrom g m pools y →
  clusterOf g m t (span_pool s) (span_top s) ⊆ clusterNodes g m t pools y.
Proof.
  revert y. induction pools as [|p pools IH]; intros y Hs; cbn in Hs.
  - by apply elem_of_nil in Hs.
  - cbn [clusterNodes]. apply elem_of_cons in Hs as [-> | Hs].
    + cbn [span_pool span_top]. set_solver.
    + pose proof (IH _ Hs). set_solver.
Qed.

Lemma spansFrom_pool_elem_of g m pools y p :
  p ∈ pools → ∃ s, s ∈ spansFrom g m pools y ∧ span_pool s = p.
Proof.
  intros Hp. rewrite <- (spansFrom_pools g m pools y) in Hp.
  apply list_elem_of_fmap in Hp as (s & -> & Hs). eauto.
Qed.

Lemma layout_cluster {A} g m (t : string → A) s :
  s ∈ clusterSpans g m t →
  clusterOf g m t (span_pool s) (span_top s)
  ⊆ lr_nodes (layoutNodesWithClusters g m t).
Proof.
  rewrite clusterSpans_spansFrom, layout_nodes. intros Hs.
  pose proof (clusterNodes_span g m t _ _ _ Hs). set_solver.
Qed.

(** C8. The default does not reach every unseen pool id, because the read
    [collapsedPools[pool.id]] goes through the prototype chain. In the
    initial state (the empty map) the pool whose id is [constructor] has no
    entry and is still laid out as collapsed: its node carries a truthy
    [__collapsed], its service is not rendered but put in the hidden set,
    and the edge of that service is not rendered. So it is not the case that
    every pool absent from the map is treated as expanded. *)
Theorem inherited_pool_id_starts_collapsed :
  let r :=
    layoutNodesWithClusters inheritedIdGraph initialCollapsedPools
      toggleHandle in
  initialCollapsedPools !! "constructor" = None
  ∧ isCollapsed initialCollapsedPools "constructor" = true
  ∧ (λ n, (rf_id n, rf_collapsed n)) <$> lr_nodes r
    = [("constructor", Some true)]
  ∧ lr_hiddenServiceIds r = {["DB.APP.S1"]}
  ∧ createEdges inheritedIdGraph (lr_hiddenServiceIds r) = []
  ∧ ¬ (∀ (g : GraphData) (m : gmap string bool) (p : GraphNode),
         p ∈ g_nodes g → node_type p = computePool → m !! node_id p = None →
         isCollapsed m (node_id p) = false).
Proof.
  assert (Hc : isCollapsed initialCollapsedPools "constructor" = true)
    by (vm_compute; reflexivity).
  split_and!.
  - reflexivity.
  - exact Hc.
  - vm_compute. reflexivity.
  - rewrite layout_hidden. vm_compute computePools. cbn [mbind list_bind].
    unfold hiddenOf. cbn [node_id demoPool]. rewrite Hc.
    vm_compute poolServices. cbn. set_solver.
  - vm_compute. reflexivity.
  - intros Hall.
    specialize (Hall inheritedIdGraph initialCollapsedPools
                  (demoPool "constructor")).
    cbn [node_id demoPool] in Hall. rewrite Hc in Hall.
    enough (true = false) by done. apply Hall; [|done..].
    unfold inheritedIdGraph. cbn [g_nodes]. elem_of_list.
Qed.

(** ** Where rendered nodes and hidden ids come from *)

Lemma uniqueNodeIds_inj g a b :
  uniqueNodeIds g → a ∈ g_nodes g → b ∈ g_nodes g →
  node_id a = node_id b → a = b.
Proof.
  unfold uniqueNodeIds. intros Hnd Ha Hb Hid.
  apply list_elem_of_lookup in Ha as [i Hi].
  apply list_elem_of_lookup in Hb as [j Hj].
  assert (i = j) as ->; [|congruence].
  eapply NoDup_lookup; [exact Hnd| |].
  - rewrite list_lookup_fmap, Hi. done.
  - rewrite list_lookup_fmap, Hj. cbn. by rewrite Hid.
Qed.

Lemma plainNodes_source {A} (l : list GraphNode) x (fy : nat → Z)
    (n : RFNode A) :
  n ∈ imap (λ i s, plainNode s x (fy i)) l →
  ∃ src, src ∈ l ∧ rf_id n = node_id src ∧ rf_type n = node_type src.
Proof.
  intros Hn. apply elem_of_lookup_imap_1 in Hn as (i & src & -> & Hi).
  exists src. split; [|done]. apply list_elem_of_lookup. eauto.
Qed.

Lemma clusterNodes_source {A} g m (t : string → A) pools y n :
  n ∈ clusterNodes g m t pools y →
  ∃ q, q ∈ pools
       ∧ ((rf_id n = node_id q ∧ rf_type n = node_type q)
          ∨ (isCollapsed m (node_id q) = false
             ∧ ∃ src, src ∈ poolServices g q ∧ rf_id n = node_id src
                      ∧ rf_type n = node_type src)).
Proof.
  revert y. induction pools as [|p pools IH]; intros y Hn;
    cbn [clusterNodes] in Hn.
  - by apply elem_of_nil in Hn.
  - apply elem_of_app in Hn as [Hn | Hn].
    + exists p. split; [left|]. unfold clusterOf in Hn.
      apply elem_of_cons in Hn as [-> | Hn]; [by left|].
      destruct (isCollapsed m (node_id p)) eqn:Hc;
        [by apply elem_of_nil in Hn|].
      right. split; [done|]. by apply plainNodes_source in Hn.
    + destruct (IH _ Hn) as (q & Hq & Hcase). exists q. split; [by right|done].
Qed.

(** Every rendered node is the image of a node of the graph; a rendered
    service is listed under an expanded pool. *)
Lemma layout_node_source {A} g m (t : string → A) n :
  n ∈ lr_nodes (layoutNodesWithClusters g m t) →
  ∃ src, src ∈ g_nodes g ∧ rf_id n = node_id src
         ∧ rf_type n = node_type src
         ∧ (node_type src = service →
            ∃ q, q ∈ computePools g ∧ isCollapsed m (node_id q) = false
                 ∧ ∃ src', src' ∈ poolServices g q
                           ∧ node_id src' = node_id src).
Proof.
  rewrite layout_nodes. intros Hn.
  apply elem_of_app in Hn as [Hn | Hn].
  - apply clusterNodes_source in Hn
      as (q & Hq & [[Hid Hty] | (Hc & src & Hsrc & Hid & Hty)]).
    + exists q. pose proof Hq as Hq'.
      apply computePools_elem_of in Hq' as [? Hqt].
      split_and!; [done..|]. congruence.
    + exists src. pose proof Hsrc as Hsrc'.
      apply poolServices_service in Hsrc' as (? & ? & _).
      split_and!; [done..|]. intros _. exists q. eauto.
  - assert (∃ ty, ty ≠ service ∧ ∃ x sp, n ∈ columnNodes g ty x sp)
      as (ty & Hty & x & sp & Hcol).
    { apply elem_of_app in Hn as [Hn | Hn];
        [exists notebook | exists eai]; split; eauto. }
    apply plainNodes_source in Hcol as (src & Hsrc & Hid & Hnty).
    apply list_elem_of_filter in Hsrc as [Hst Hsrc].
    unfold is_type in Hst. apply bool_decide_unpack in Hst.
    exists src. split_and!; [done..|]. congruence.
Qed.

(** A hidden id is the id of a service listed under a collapsed pool. *)
Lemma layout_hidden_elem_of {A} g m (t : string → A) x :
  x ∈ lr_hiddenServiceIds (layoutNodesWithClusters g m t) ↔
  ∃ q, q ∈ computePools g ∧ isCollapsed m (node_id q) = true
       ∧ ∃ src, src ∈ poolServices g q ∧ x = node_id src.
Proof.
  rewrite layout_hidden, elem_of_list_to_set, list_elem_of_bind.
  unfold hiddenOf. split.
  - intros (q & Hx & Hq). destruct (isCollapsed m (node_id q)) eqn:Hc.
    + apply list_elem_of_fmap in Hx as (src & -> & Hsrc). eauto 10.
    + by apply elem_of_nil in Hx.
  - intros (q & Hq & Hc & src & Hsrc & ->). exists q. split; [|done].
    rewrite Hc. by apply list_elem_of_fmap_2.
Qed.

Lemma orphan_not_listed g svc q :
  orphanService g svc → q ∈ computePools g → svc ∉ poolServices g q.
Proof.
  intros Horph Hq Hin. apply Horph.
  apply poolServices_service in Hin as (_ & _ & ->).
  apply list_elem_of_fmap_2. unfold poolNames.
  apply (list_elem_of_fmap_2 (λ p, data_name (node_data p))).
  apply computePools_elem_of in Hq as [? ?].
  apply list_elem_of_filter. unfold is_type. by rewrite bool_decide_spec.
Qed.

(** ** Services whose pool is not in the graph *)

Lemma joinsServices_true g e s1 s2 :
  s1 ∈ services g → s2 ∈ services g →
  edge_source e = node_id s1 → edge_target e = node_id s2 →
  joinsServices g e = true.
Proof.
  intros H1 H2 Hs Ht. unfold joinsServices.
  rewrite !bool_decide_eq_true_2; [done|..].
  - rewrite Ht. by apply list_elem_of_fmap_2.
  - rewrite Hs. by apply list_elem_of_fmap_2.
Qed.

Lemma services_elem_of g s :
  s ∈ services g ↔ s ∈ g_nodes g ∧ node_type s = service.
Proof.
  unfold services, is_type.
  by rewrite list_elem_of_filter, bool_decide_spec, (comm and).
Qed.

(** C9. In a graph with unique node ids, take a service node whose
    [computePool] is not the name of any compute-pool node (the empty
    string included). The layout renders no node with its id and does not
    put its id into the hidden set; so, edges being service-to-pool or
    service-to-integration, every edge that references it passes the
    filter of [createEdges] and is rendered with that endpoint missing
    from the rendered nodes. *)
Theorem orphan_service_edges_dangle {A} (g : GraphData)
    (m : gmap string bool) (t : string → A) (svc : GraphNode) :
  uniqueNodeIds g → noServiceToServiceEdge g →
  svc ∈ g_nodes g → node_type svc = service → orphanService g svc →
  let r := layoutNodesWithClusters g m t in
  (node_id svc ∉ (rf_id <$> lr_nodes r))
  ∧ (node_id svc ∉ lr_hiddenServiceIds r)
  ∧ ∀ e, e ∈ g_edges g →
         edge_source e = node_id svc ∨ edge_target e = node_id svc →
         edgeVisible (lr_hiddenServiceIds r) e = true
         ∧ renderEdge e ∈ createEdges g (lr_hiddenServiceIds r)
         ∧ (re_source (renderEdge e) ∉ (rf_id <$> lr_nodes r)
            ∨ re_target (renderEdge e) ∉ (rf_id <$> lr_nodes r)).
Proof.
  intros Hnd Hedges Hsvc Hty Horph. cbn zeta.
  assert (Hlisted : ∀ q src, q ∈ computePools g → src ∈ poolServices g q →
            node_id src ≠ node_id svc).
  { intros q src Hq Hsrc Hid.
    assert (src = svc) as ->.
    { apply (uniqueNodeIds_inj g); [done| |done..].
      by apply poolServices_service in Hsrc as (? & _). }
    by apply (orphan_not_listed g svc q). }
  assert (Hnot_rendered :
    node_id svc ∉ (rf_id <$> lr_nodes (layoutNodesWithClusters g m t))).
  { intros Hin. apply list_elem_of_fmap in Hin as (n & Hid & Hn).
    apply layout_node_source in Hn as (src & Hsrc & Hid' & _ & Hlist).
    assert (src = svc) as ->.
    { apply (uniqueNodeIds_inj g); [done..|congruence]. }
    destruct (Hlist Hty) as (q & Hq & _ & src' & Hsrc' & Hid'').
    by apply (Hlisted q src'). }
  assert (Hnot_hidden :
    node_id svc ∉ lr_hiddenServiceIds (layoutNodesWithClusters g m t)).
  { intros Hin.
    apply layout_hidden_elem_of in Hin as (q & Hq & _ & src & Hsrc & Hid).
    by apply (Hlisted q src). }
  split_and!; [done..|].
  intros e He Href.
  assert (Hvis : edgeVisible
            (lr_hiddenServiceIds (layoutNodesWithClusters g m t)) e = true).
  { unfold noServiceToServiceEdge in Hedges. rewrite Forall_forall in Hedges.
    specialize (Hedges e He).
    assert (Hsvc' : svc ∈ services g) by by apply services_elem_of.
    assert (Hh : ∀ x, x ∈ lr_hiddenServiceIds (layoutNodesWithClusters g m t) →
              ∃ src, src ∈ services g ∧ x = node_id src).
    { intros x Hx.
      apply layout_hidden_elem_of in Hx as (q & _ & _ & src & Hsrc & ->).
      exists src. split; [|done]. apply services_elem_of.
      apply poolServices_service in Hsrc. tauto. }
    unfold edgeVisible. apply andb_true_iff.
    split; apply negb_true_iff, bool_decide_eq_false_2; intros Hx.
    - destruct Href as [Hs | Ht]; [by rewrite Hs in Hx|].
      destruct (Hh _ Hx) as (src & Hsrc & Hid).
      by rewrite (joinsServices_true g e src svc) in Hedges.
    - destruct Href as [Hs | Ht]; [|by rewrite Ht in Hx].
      destruct (Hh _ Hx) as (src & Hsrc & Hid).
      by rewrite (joinsServices_true g e svc src) in Hedges. }
  split_and!; [done| |].
  - unfold createEdges. apply list_elem_of_fmap_2, list_elem_of_filter.
    by rewrite Hvis.
  - cbn. destruct Href as [-> | ->]; [by left|by right].
Qed.

Lemma orphan_service_edges_dangle_witness :
  ("DB.APP.ORPHAN"
   ∉ (rf_id <$> lr_nodes (layoutNodesWithClusters demoGraph ∅ toggleHandle)))
  ∧ renderEdge (demoEdge "DB.APP.ORPHAN" "EAI_X" "uses")
    ∈ createEdges demoGraph
        (lr_hiddenServiceIds
           (layoutNodesWithClusters demoGraph ∅ toggleHandle)).
Proof.
  assert (Hnd : uniqueNodeIds demoGraph)
    by (unfold uniqueNodeIds; decide_by_computation).
  assert (Hedges : noServiceToServiceEdge demoGraph)
    by (unfold noServiceToServiceEdge; decide_by_computation).
  assert (Horph : orphanService demoGraph (demoService "ORPHAN" "POOL_GONE"))
    by (unfold orphanService; decide_by_computation).
  assert (Hin : demoService "ORPHAN" "POOL_GONE" ∈ g_nodes demoGraph)
    by (unfold demoGraph; cbn [g_nodes]; elem_of_list).
  destruct (orphan_service_edges_dangle demoGraph ∅ toggleHandle
              (demoService "ORPHAN" "POOL_GONE") Hnd Hedges Hin eq_refl Horph)
    as (Hnodes & _ & Hedge).
  split; [exact Hnodes|].
  apply (Hedge (demoEdge "DB.APP.ORPHAN" "EAI_X" "uses")).
  - unfold demoGraph. cbn [g_edges]. elem_of_list.
  - left. reflexivity.
Defined.

(** ** Collapsing one pool *)

Lemma plainNodes_ids {A} (l : list GraphNode) x (fy : nat → Z) :
  rf_id <$> imap (λ i s, plainNode (A:=A) s x (fy i)) l = node_id <$> l.
Proof.
  rewrite fmap_imap. revert fy. induction l as [|s l IH]; intros fy; [done|].
  rewrite imap_cons, fmap_cons. f_equal. apply (IH (fy ∘ S)).
Qed.

Lemma clusterNodes_ids {A} g m (t : string → A) pools y :
  rf_id <$> clusterNodes g m t pools y = pools ≫= clusterIds g m.
Proof.
  revert y. induction pools as [|p pools IH]; intros y; [done|].
  cbn [clusterNodes]. rewrite bind_cons, fmap_app, IH. f_equal.
  unfold clusterOf, clusterIds. rewrite fmap_cons. f_equal.
  destruct (isCollapsed m (node_id p)); [done|]. apply plainNodes_ids.
Qed.

Lemma layout_ids {A} g m (t : string → A) :
  rf_id <$> lr_nodes (layoutNodesWithClusters g m t)
  = (computePools g ≫= clusterIds g m) ++ columnIds g.
Proof.
  rewrite layout_nodes, !fmap_app, clusterNodes_ids.
  unfold columnNodes, columnIds. by rewrite !plainNodes_ids.
Qed.




Lemma uniquePoolNames_inj g a b :
  uniquePoolNames g → a ∈ computePools g → b ∈ computePools g →
  data_name (node_data a) = data_name (node_data b) →
  node_id a = node_id b.
Proof.
  unfold uniquePoolNames, poolNames, computePools.
  rewrite !sort_desc_elem_of.
  generalize (filter (λ n, is_type computePool n) (g_nodes g)).
  intros l Hnd Ha Hb Hname.
  apply list_elem_of_lookup in Ha as [i Hi].
  apply list_elem_of_lookup in Hb as [j Hj].
  assert (i = j) as ->; [|congruence].
  eapply NoDup_lookup; [exact Hnd| |].
  - rewrite list_lookup_fmap, Hi. done.
  - rewrite list_lookup_fmap, Hj. cbn. by rewrite Hname.
Qed.


Lemma filter_Forall_id {T} (P : T → Prop) `{!∀ x, Decision (P x)} l :
  Forall P l → filter P l = l.
Proof.
  induction 1 as [|x l Hx _ IH]; [done|].
  by rewrite filter_cons_True, IH.
Qed.

Lemma filter_Forall_nil {T} (P : T → Prop) `{!∀ x, Decision (P x)} l :
  Forall (λ x, ¬ P x) l → filter P l = [].
Proof.
  induction 1 as [|x l Hx _ IH]; [done|].
  by rewrite filter_cons_False.
Qed.






(** ** Backend: the reconciled services *)

Lemma dict_get_set d k v k' :
  dict_get (dict_set d k v) k'
  = if decide (k = k') then Some v else dict_get d k'.
Proof.
  induction d as [|[k0 v0] d IH]; csimpl.
  - done.
  - destruct (decide (k0 = k)) as [->|Hne]; csimpl.
    + by repeat case_decide.
    + rewrite IH. repeat case_decide; congruence.
Qed.

Lemma dict_set_keys d k v k' :
  k' ∈ (dict_set d k v).*1 ↔ k' = k ∨ k' ∈ d.*1.
Proof.
  induction d as [|[k0 v0] d IH]; csimpl.
  - rewrite list_elem_of_singleton, elem_of_nil. tauto.
  - destruct (decide (k0 = k)) as [->|Hne]; csimpl.
    + rewrite !elem_of_cons. tauto.
    + rewrite !elem_of_cons, IH. tauto.
Qed.

Lemma dict_set_well_keyed d s :
  well_keyed d → well_keyed (dict_set d (service_key s) s).
Proof.
  unfold well_keyed. induction d as [|[k0 v0] d IH]; csimpl.
  - intros _. split; [apply NoDup_singleton|]. by repeat constructor.
  - rewrite NoDup_cons, Forall_cons. intros [[Hk0 Hnd] [Hkv Hk]].
    destruct (decide (k0 = service_key s)) as [->|Hne]; csimpl.
    + rewrite NoDup_cons, Forall_cons. done.
    + destruct (IH (conj Hnd Hk)) as [Hnd' Hk'].
      rewrite NoDup_cons, Forall_cons, dict_set_keys. tauto.
Qed.

Lemma store_services_well_keyed d l :
  well_keyed d → well_keyed (store_services d l).
Proof.
  revert d. induction l as [|s l IH]; intros d Hd; [done|].
  apply IH. by apply dict_set_well_keyed.
Qed.

Lemma store_services_get d l k :
  dict_get (store_services d l) k
  = match last_named k l with Some s => Some s | None => dict_get d k end.
Proof.
  revert d. induction l as [|s l IH]; intros d; [done|].
  unfold store_services. cbn [foldl].
  fold (store_services (dict_set d (service_key s) s) l).
  rewrite IH, dict_get_set. unfold last_named. rewrite filter_cons.
  destruct (decide (service_key s = k)) as [Hk|Hk].
  - rewrite last_cons. by destruct (last _).
  - done.
Qed.

Lemma store_listings d (listings : list Listing) :
  foldl (λ d pool_services, store_services d (rows_of pool_services))
    d listings
  = store_services d (concat (rows_of <$> listings)).
Proof.
  revert d. induction listings as [|P Ps IH]; intros d; [done|].
  cbn [foldl fmap list_fmap concat]. rewrite IH.
  unfold store_services. by rewrite foldl_app.
Qed.

Lemma dict_get_Some d k v :
  NoDup d.*1 → dict_get d k = Some v ↔ (k, v) ∈ d.
Proof.
  induction d as [|[k0 v0] d IH]; csimpl; intros Hnd.
  - rewrite elem_of_nil. split; [done|tauto].
  - rewrite NoDup_cons in Hnd. destruct Hnd as [Hk0 Hnd].
    rewrite elem_of_cons.
    destruct (decide (k0 = k)) as [->|Hne].
    + split; [intros [= ->]; by left|].
      intros [[= ->] | Hin]; [done|].
      destruct Hk0. by apply (list_elem_of_fmap_2 fst) in Hin.
    + rewrite IH by done. split; [tauto|]. intros [[= -> ->] | ?]; done.
Qed.

Lemma well_keyed_values d v :
  well_keyed d → v ∈ d.*2 ↔ dict_get d (service_key v) = Some v.
Proof.
  intros [Hnd Hk]. rewrite dict_get_Some by done. split.
  - intros ([k v'] & -> & Hin)%list_elem_of_fmap.
    rewrite Forall_forall in Hk. by rewrite (Hk _ Hin).
  - intros Hin. by apply (list_elem_of_fmap_2 snd) in Hin.
Qed.

Lemma well_keyed_names d :
  well_keyed d → service_key <$> d.*2 = d.*1.
Proof.
  intros [_ Hk]. induction Hk as [|[k v] d Hkv _ IH]; [done|].
  csimpl in *. by rewrite Hkv, IH.
Qed.

Lemma last_named_None k l :
  last_named k l = None ↔ k ∉ (service_key <$> l).
Proof.
  unfold last_named. rewrite last_None. split.
  - intros Hnil (s & -> & Hs)%list_elem_of_fmap.
    by eapply (filter_nil_not_elem_of _ l s).
  - intros Hk. apply filter_Forall_nil, Forall_forall.
    intros s Hs <-. by apply Hk, list_elem_of_fmap_2.
Qed.

Lemma last_named_app k l1 l2 :
  last_named k (l1 ++ l2)
  = match last_named k l2 with Some s => Some s | None => last_named k l1 end.
Proof. unfold last_named. by rewrite filter_app, last_app. Qed.

(** What [get_services] returns, entry by entry: the last record of that
    name in the baseline followed by the pool listings. *)
Lemma get_services_spec baseline pool_listings :
  ∃ d, get_services baseline pool_listings = d.*2 ∧ well_keyed d
       ∧ ∀ k, dict_get d k
              = last_named k (rows_of baseline
                              ++ concat (rows_of <$> pool_listings)).
Proof.
  unfold get_services. rewrite store_listings.
  eexists. split; [done|]. split.
  - do 2 apply store_services_well_keyed. split; constructor.
  - intros k. rewrite last_named_app, !store_services_get. cbn.
    by destruct (last_named k (concat _)), (last_named k (rows_of baseline)).
Qed.

(** C3. For a baseline listing [B] and pool listings [P1..Pn] (a failed
    query counting as an empty listing), the reconciled services have
    pairwise different fully qualified names, and these are exactly the
    names occurring in [B] or some [Pi]. For a name that some [Pi]
    supplies, the retained entry is the record of the last [Pi] supplying
    it (the last one of that name in that listing), so its compute pool is
    that record's; an entry kept from [B] has a name no [Pi] supplies. *)
Theorem reconciled_services_unique (baseline : Listing)
    (pool_listings : list Listing) :
  let B := rows_of baseline in
  let Ps := rows_of <$> pool_listings in
  let R := get_services baseline pool_listings in
  NoDup (service_key <$> R)
  ∧ (∀ k, k ∈ service_key <$> R ↔ k ∈ service_key <$> (B ++ concat Ps))
  ∧ (∀ Pre Pi Post s,
       Ps = Pre ++ Pi :: Post →
       last_named (service_key s) Pi = Some s →
       service_key s ∉ (service_key <$> concat Post) →
       s ∈ R
       ∧ ∀ r, r ∈ R → service_key r = service_key s →
              r = s ∧ svc_compute_pool r = svc_compute_pool s)
  ∧ (∀ r, r ∈ R → service_key r ∉ (service_key <$> concat Ps) →
          last_named (service_key r) B = Some r).
Proof.
  cbn zeta.
  destruct (get_services_spec baseline pool_listings) as (d & -> & Hd & Hget).
  split_and!.
  - rewrite well_keyed_names by done. apply Hd.
  - intros k. rewrite well_keyed_names by done.
    destruct (last_named k
                (rows_of baseline ++ concat (rows_of <$> pool_listings)))
      as [s|] eqn:Hlast.
    + split; intros _.
      * destruct (decide (k ∈ service_key <$>
                   (rows_of baseline ++ concat (rows_of <$> pool_listings))))
          as [|Hk]; [done|].
        apply last_named_None in Hk. congruence.
      * rewrite <- Hget in Hlast. apply dict_get_Some in Hlast; [|apply Hd].
        by apply (list_elem_of_fmap_2 fst) in Hlast.
    + pose proof Hlast as Hnone%last_named_None. split; [|done].
      intros ([k' v] & -> & Hin)%list_elem_of_fmap.
      apply dict_get_Some in Hin; [|apply Hd]. csimpl in *. congruence.
  - intros Pre Pi Post s HPs Hlast Hpost.
    assert (Hs : dict_get d (service_key s) = Some s).
    { rewrite Hget, HPs, concat_app, concat_cons.
      rewrite !last_named_app, Hlast.
      apply last_named_None in Hpost. by rewrite Hpost. }
    split; [by apply well_keyed_values|].
    intros r Hr Hkey. apply well_keyed_values in Hr; [|done].
    rewrite Hkey, Hs in Hr. by injection Hr as ->.
  - intros r Hr Hk. apply well_keyed_values in Hr; [|done].
    rewrite Hget, last_named_app in Hr.
    apply last_named_None in Hk. by rewrite Hk in Hr.
Qed.

Lemma reconciled_services_unique_witness :
  get_services (Rows [demoRecord ""]) [Rows [demoRecord "POOL1"]]
  = [demoRecord "POOL1"]
  ∧ demoRecord "POOL1"
    ∈ get_services (Rows [demoRecord ""]) [Rows [demoRecord "POOL1"]].
Proof.
  split; [reflexivity|].
  destruct (reconciled_services_unique (Rows [demoRecord ""])
              [Rows [demoRecord "POOL1"]]) as (_ & _ & Hlast & _).
  destruct (Hlast [] [demoRecord "POOL1"] [] (demoRecord "POOL1"))
    as [Hin _].
  - reflexivity.
  - reflexivity.
  - apply not_elem_of_nil.
  - exact Hin.
Defined.

(** ** Backend: the validated graph *)

(** C1. Whatever candidate nodes and edges go in, every edge of the
    emitted graph has its source id and its target id among the ids of the
    emitted nodes; the nodes are the candidate nodes. *)
Theorem validated_edges_have_endpoints (candidate_nodes : list GraphNode)
    (candidate_edges : list GraphEdge) :
  let out :=
    (validate_references
       {| g_nodes := candidate_nodes; g_edges := candidate_edges |}).1 in
  g_nodes out = candidate_nodes
  ∧ Forall (λ e, edge_source e ∈ node_id <$> g_nodes out
                 ∧ edge_target e ∈ node_id <$> g_nodes out)
      (g_edges out)
  ∧ ¬ ∃ e, e ∈ g_edges out
           ∧ (edge_source e ∉ (node_id <$> g_nodes out)
              ∨ edge_target e ∉ (node_id <$> g_nodes out)).
Proof.
  cbn zeta. unfold validate_references. cbn [fst g_nodes g_edges].
  assert (Hall : Forall
    (λ e, edge_source e ∈ node_id <$> candidate_nodes
          ∧ edge_target e ∈ node_id <$> candidate_nodes)
    (filter
       (λ e, edge_source e
             ∈ (list_to_set (node_id <$> candidate_nodes) : gset string)
             ∧ edge_target e
               ∈ (list_to_set (node_id <$> candidate_nodes) : gset string))
       candidate_edges)).
  { apply Forall_forall. intros e [He _]%list_elem_of_filter.
    by rewrite !elem_of_list_to_set in He. }
  split_and!; [done|done|].
  intros (e & He & Hbad). rewrite Forall_forall in Hall.
  specialize (Hall e He). tauto.
Qed.

(** A candidate edge to a pool that is not a node is dropped and logged;
    the edge to the existing integration is kept. *)
Example validate_references_demo :
  validate_references
    {| g_nodes := g_nodes demoGraph;
       g_edges := [ demoEdge "DB.APP.ORPHAN" "POOL_GONE" "runs on";
                    demoEdge "DB.APP.ORPHAN" "EAI_X" "uses" ] |}
  = ({| g_nodes := g_nodes demoGraph;
        g_edges := [ demoEdge "DB.APP.ORPHAN" "EAI_X" "uses" ] |},
     [ ("DB.APP.ORPHAN", "POOL_GONE", Some "runs on") ]).
Proof. by vm_compute. Qed.

(** * Further properties of the layout and the components *)

(** ** Columns *)

Lemma clusterNodes_shape {A} g m (t : string → A) pools y n :
  n ∈ clusterNodes g m t pools y →
  ∃ q y0, q ∈ pools
    ∧ (n = poolNode g m t q y0
       ∨ (isCollapsed m (node_id q) = false
          ∧ ∃ (idx : nat) src,
              poolServices g q !! idx = Some src
              ∧ n = plainNode src xPositions_service
                      (y0 + Z.of_nat idx * serviceYSpacing))).
Proof.
  revert y. induction pools as [|p pools IH]; intros y Hn;
    cbn [clusterNodes] in Hn.
  - by apply elem_of_nil in Hn.
  - apply elem_of_app in Hn as [Hn | Hn].
    + exists p, y. split; [left|]. unfold clusterOf in Hn.
      apply elem_of_cons in Hn as [-> | Hn]; [by left|].
      destruct (isCollapsed m (node_id p)) eqn:Hc;
        [by apply elem_of_nil in Hn|].
      right. split; [done|]. unfold serviceNodes in Hn.
      apply elem_of_lookup_imap_1 in Hn as (idx & src & -> & Hidx). eauto.
    + destruct (IH _ Hn) as (q & y0 & Hq & Hcase).
      exists q, y0. split; [by right|done].
Qed.

(** X1. Every rendered node stands in the column of its type: notebooks at 0,
    services at 400, compute pools at 750, integrations at 1100, left to
    right in that order. *)
Theorem rendered_column_by_type {A} (g : GraphData) (m : gmap string bool)
    (t : string → A) :
  Forall (λ n, rf_x n = xPositions (rf_type n))
    (lr_nodes (layoutNodesWithClusters g m t))
  ∧ xPositions notebook < xPositions service
  ∧ xPositions service < xPositions computePool
  ∧ xPositions computePool < xPositions eai.
Proof.
  split; [|done]. apply Forall_forall. intros n Hn.
  rewrite layout_nodes in Hn. apply elem_of_app in Hn as [Hn | Hn].
  - apply clusterNodes_shape in Hn
      as (q & y0 & Hq & [-> | (_ & idx & src & Hsrc & ->)]).
    + apply computePools_elem_of in Hq as [_ Hty]. cbn. by rewrite Hty.
    + apply list_elem_of_lookup_2, poolServices_service in Hsrc
        as (_ & Hty & _).
      cbn. by rewrite Hty.
  - apply elem_of_app in Hn as [Hn | Hn]; unfold columnNodes in Hn;
      apply elem_of_lookup_imap_1 in Hn as (idx & src & -> & Hidx);
      apply list_elem_of_lookup_2, list_elem_of_filter in Hidx as [Hty _];
      unfold is_type in Hty; apply bool_decide_unpack in Hty;
      cbn; by rewrite Hty.
Qed.

Lemma plainNodes_filter_type_all {A} ty (l : list GraphNode) x
    (fy : nat → Z) :
  Forall (λ s, node_type s = ty) l →
  filter (λ n : RFNode A, rf_type n = ty)
    (imap (λ i s, plainNode s x (fy i)) l)
  = imap (λ i s, plainNode s x (fy i)) l.
Proof.
  intros Hl. apply filter_Forall_id, Forall_forall. intros n Hn.
  apply elem_of_lookup_imap_1 in Hn as (i & s & -> & Hi).
  rewrite Forall_forall in Hl. apply Hl. by eapply list_elem_of_lookup_2.
Qed.

Lemma plainNodes_filter_type_none {A} ty (l : list GraphNode) x
    (fy : nat → Z) :
  Forall (λ s, node_type s ≠ ty) l →
  filter (λ n : RFNode A, rf_type n = ty)
    (imap (λ i s, plainNode s x (fy i)) l) = [].
Proof.
  intros Hl. apply filter_Forall_nil, Forall_forall. intros n Hn.
  apply elem_of_lookup_imap_1 in Hn as (i & s & -> & Hi).
  rewrite Forall_forall in Hl. apply Hl. by eapply list_elem_of_lookup_2.
Qed.

Lemma filter_type_Forall ty (l : list GraphNode) :
  Forall (λ s, node_type s = ty) (filter (λ n, is_type ty n) l).
Proof.
  apply Forall_forall. intros s [Hs _]%list_elem_of_filter.
  unfold is_type in Hs. by apply bool_decide_unpack in Hs.
Qed.

Lemma clusterNodes_types {A} g m (t : string → A) ty :
  ty ≠ computePool → ty ≠ service →
  filter (λ n : RFNode A, rf_type n = ty)
    (clusterNodes g m t (computePools g) yOffset) = [].
Proof.
  intros Hp Hs. apply filter_Forall_nil, Forall_forall. intros n Hn.
  apply clusterNodes_source in Hn
    as (q & Hq & [[_ Hty] | (_ & src & Hsrc & _ & Hty)]); rewrite Hty.
  - apply computePools_elem_of in Hq as [_ ->]. done.
  - apply poolServices_service in Hsrc as (_ & -> & _). done.
Qed.

(** X2. The notebooks and the integrations are laid out on their own: the
    rendered notebooks are the graph's notebooks in input order at x = 0,
    y = 50 + 100 i, the rendered integrations the graph's integrations at
    x = 1100, y = 50 + 80 i, whatever the collapse map, the pools and the
    services are. *)
Theorem columns_ignore_clusters {A} (g : GraphData) (m : gmap string bool)
    (t : string → A) :
  filter (λ n, rf_type n = notebook)
    (lr_nodes (layoutNodesWithClusters g m t))
  = imap (λ i n, plainNode n 0 (50 + Z.of_nat i * 100))
      (filter (λ n, is_type notebook n) (g_nodes g))
  ∧ filter (λ n, rf_type n = eai)
      (lr_nodes (layoutNodesWithClusters g m t))
    = imap (λ i n, plainNode n 1100 (50 + Z.of_nat i * 80))
        (filter (λ n, is_type eai n) (g_nodes g)).
Proof.
  assert (Hother : ∀ ty ty' x sp, ty ≠ ty' →
    filter (λ n : RFNode A, rf_type n = ty) (columnNodes g ty' x sp) = []).
  { intros ty ty' x sp Hne. apply plainNodes_filter_type_none.
    eapply Forall_impl; [apply filter_type_Forall|]. cbn. congruence. }
  assert (Hsame : ∀ ty x sp,
    filter (λ n : RFNode A, rf_type n = ty) (columnNodes g ty x sp)
    = columnNodes g ty x sp).
  { intros ty x sp. apply plainNodes_filter_type_all, filter_type_Forall. }
  rewrite layout_nodes, !filter_app, !clusterNodes_types by done.
  rewrite !Hsame, !Hother by done.
  by rewrite !(right_id_L [] (++)).
Qed.

(** ** Positions *)

Lemma plainNodes_increasing {A} (l : list GraphNode) x (fy : nat → Z) :
  (∀ i j : nat, (i < j)%nat → fy i < fy j) →
  StronglySorted (λ a b : RFNode A, rf_y a < rf_y b)
    (imap (λ i s, plainNode s x (fy i)) l).
Proof.
  revert fy. induction l as [|s l IH]; intros fy Hfy; [constructor|].
  rewrite imap_cons. constructor.
  - apply (IH (fy ∘ S)). intros i j Hij. apply Hfy. lia.
  - apply Forall_forall. intros n Hn.
    apply elem_of_lookup_imap_1 in Hn as (i & s' & -> & _). cbn.
    apply Hfy. lia.
Qed.

Lemma StronglySorted_weaken {T} (R1 R2 : relation T) l :
  (∀ a b, R1 a b → R2 a b) → StronglySorted R1 l → StronglySorted R2 l.
Proof.
  intros HR. induction 1 as [|x l _ IH Hx]; constructor; [done|].
  eapply Forall_impl; [exact Hx|]. auto.
Qed.

Lemma apart_NoDup {A} (l : list (RFNode A)) :
  StronglySorted apart l → NoDup (position <$> l).
Proof.
  induction 1 as [|a l _ IH Ha]; csimpl; constructor; [|done].
  intros (b & Hpos & Hb)%list_elem_of_fmap.
  rewrite Forall_forall in Ha. specialize (Ha b Hb).
  unfold position in Hpos. injection Hpos as Hx Hy.
  destruct Ha as [Ha | Ha]; [done|lia].
Qed.

Lemma clusterHeight_expanded' g m pool :
  isCollapsed m (node_id pool) = false →
  clusterHeight g m pool
  = Z.max 80 (Z.of_nat (length (poolServices g pool)) * serviceYSpacing).
Proof. unfold clusterHeight, visibleServiceCount. by intros ->. Qed.

Section PositionFacts.
Context {A : Type}.
Variable g : GraphData.
Variable m : gmap string bool.
Variable t : string → A.

Lemma serviceNodes_bounds pool y :
  isCollapsed m (node_id pool) = false →
  Forall (λ n, y ≤ rf_y n
               ∧ rf_y n + serviceYSpacing ≤ y + clusterHeight g m pool
               ∧ rf_x n = xPositions_service)
    (serviceNodes (A:=A) g pool y).
Proof.
  intros Hexp. apply Forall_forall. intros n Hn. unfold serviceNodes in Hn.
  apply elem_of_lookup_imap_1 in Hn as (idx & src & -> & Hidx). cbn.
  apply lookup_lt_Some in Hidx.
  rewrite clusterHeight_expanded' by done.
  unfold serviceYSpacing. lia.
Qed.

Lemma clusterOf_bounds pool y :
  Forall (λ n, y ≤ rf_y n ∧ rf_y n < y + clusterHeight g m pool)
    (clusterOf g m t pool y).
Proof.
  unfold clusterOf. constructor; [apply poolNode_y_bounds|].
  destruct (isCollapsed m (node_id pool)) eqn:Hc; [constructor|].
  eapply Forall_impl; [by apply serviceNodes_bounds|]. cbn.
  unfold serviceYSpacing. lia.
Qed.

Lemma clusterOf_apart pool y :
  StronglySorted apart (clusterOf g m t pool y).
Proof.
  unfold clusterOf. constructor.
  - destruct (isCollapsed m (node_id pool)); [constructor|].
    eapply StronglySorted_weaken; [|apply plainNodes_increasing].
    + intros a b Hab. by right.
    + intros i j Hij. unfold serviceYSpacing. lia.
  - destruct (isCollapsed m (node_id pool)) eqn:Hc; [constructor|].
    eapply Forall_impl; [by apply serviceNodes_bounds|]. cbn.
    intros n (_ & _ & Hx). left. by rewrite Hx.
Qed.

Lemma clusterNodes_lower pools y :
  Forall (λ n, y ≤ rf_y n) (clusterNodes g m t pools y).
Proof.
  revert y. induction pools as [|p pools IH]; intros y; [constructor|].
  cbn [clusterNodes]. apply Forall_app. split.
  - eapply Forall_impl; [apply clusterOf_bounds|]. cbn. tauto.
  - eapply Forall_impl; [apply IH|]. cbn. intros n.
    pose proof (clusterHeight_floor g m p). unfold clusterSpacing. lia.
Qed.

Lemma clusterNodes_apart pools y :
  StronglySorted apart (clusterNodes g m t pools y).
Proof.
  revert y. induction pools as [|p pools IH]; intros y; [constructor|].
  cbn [clusterNodes]. apply StronglySorted_app_2;
    [|apply clusterOf_apart|apply IH].
  intros a b Ha Hb. right.
  pose proof (clusterOf_bounds p y) as Hbounds.
  rewrite Forall_forall in Hbounds. specialize (Hbounds a Ha).
  pose proof (clusterNodes_lower pools
                (y + (clusterHeight g m p + clusterSpacing))) as Hlow.
  rewrite Forall_forall in Hlow. specialize (Hlow b Hb). cbn in Hlow.
  unfold clusterSpacing in Hlow. lia.
Qed.

Lemma clusterNodes_columns pools y :
  Forall (λ n, rf_x n = xPositions_computePool
               ∨ rf_x n = xPositions_service)
    (clusterNodes g m t pools y).
Proof.
  apply Forall_forall. intros n Hn.
  apply clusterNodes_shape in Hn
    as (q & y0 & _ & [-> | (_ & idx & src & _ & ->)]); [by left|by right].
Qed.

Lemma columnNodes_apart ty x spacing :
  0 < spacing → StronglySorted apart (columnNodes (A:=A) g ty x spacing).
Proof.
  intros Hsp. eapply StronglySorted_weaken; [|apply plainNodes_increasing].
  - intros a b Hab. by right.
  - intros i j Hij. nia.
Qed.

Lemma columnNodes_x ty x spacing :
  Forall (λ n, rf_x n = x) (columnNodes (A:=A) g ty x spacing).
Proof.
  apply Forall_forall. intros n Hn.
  by apply elem_of_lookup_imap_1 in Hn as (i & s & -> & _).
Qed.
End PositionFacts.

(** X3. No two rendered nodes are put at the same position, whatever the graph
    and the collapse map are (duplicated ids or names included). *)
Theorem rendered_positions_distinct {A} (g : GraphData)
    (m : gmap string bool) (t : string → A) :
  NoDup (position <$> lr_nodes (layoutNodesWithClusters g m t)).
Proof.
  apply apart_NoDup. rewrite layout_nodes.
  pose proof (clusterNodes_columns g m t (computePools g) yOffset) as Hcl.
  pose proof (columnNodes_x (A:=A) g notebook xPositions_notebook
                notebookYSpacing) as Hnb.
  pose proof (columnNodes_x (A:=A) g eai xPositions_eai eaiYSpacing) as Heai.
  rewrite Forall_forall in Hcl, Hnb, Heai.
  apply StronglySorted_app_2; [|apply clusterNodes_apart|].
  - intros a b Ha Hb. left. specialize (Hcl a Ha).
    apply elem_of_app in Hb as [Hb | Hb];
      [rewrite (Hnb b Hb) | rewrite (Heai b Hb)];
      destruct Hcl as [-> | ->]; done.
  - apply StronglySorted_app_2; [|by apply columnNodes_apart..].
    intros a b Ha Hb. left. by rewrite (Hnb a Ha), (Heai b Hb).
Qed.

Lemma clusterNodes_in_span {A} g m (t : string → A) pools y n :
  n ∈ clusterNodes g m t pools y →
  ∃ s, s ∈ spansFrom g m pools y
       ∧ n ∈ clusterOf g m t (span_pool s) (span_top s).
Proof.
  revert y. induction pools as [|p pools IH]; intros y Hn;
    cbn [clusterNodes] in Hn.
  - by apply elem_of_nil in Hn.
  - cbn [spansFrom]. apply elem_of_app in Hn as [Hn | Hn].
    + eexists. split; [left|]. done.
    + destruct (IH _ Hn) as (s & Hs & Hin). exists s. split; [by right|done].
Qed.

(** X4. A rendered service lies inside the span of the cluster of an expanded
    pool that lists it: at the span's top plus 70 per place in the pool's
    list, with its 70-high slot ending at or above the span's bottom; so
    it stays above the next cluster. *)
Theorem services_within_cluster_span {A} (g : GraphData)
    (m : gmap string bool) (t : string → A) :
  Forall
    (λ n, ∃ s, s ∈ clusterSpans g m t
               ∧ isCollapsed m (node_id (span_pool s)) = false
               ∧ span_top s ≤ rf_y n
               ∧ rf_y n + 70 ≤ span_bottom s
               ∧ ∃ (idx : nat) src,
                   poolServices g (span_pool s) !! idx = Some src
                   ∧ rf_id n = node_id src
                   ∧ rf_y n = span_top s + Z.of_nat idx * 70)
    (filter (λ n, rf_type n = service)
       (lr_nodes (layoutNodesWithClusters g m t))).
Proof.
  apply Forall_forall. intros n [Hty Hn]%list_elem_of_filter.
  rewrite layout_nodes in Hn. apply elem_of_app in Hn as [Hn | Hn].
  - apply clusterNodes_in_span in Hn as (s & Hs & Hn).
    assert (Hpool : node_type (span_pool s) = computePool).
    { apply (list_elem_of_fmap_2 span_pool) in Hs.
      rewrite spansFrom_pools in Hs.
      by apply computePools_elem_of in Hs as [_ ?]. }
    rewrite <- (clusterSpans_spansFrom g m t) in Hs.
    exists s. unfold clusterOf in Hn.
    apply elem_of_cons in Hn as [-> | Hn]; [cbn in Hty; congruence|].
    destruct (isCollapsed m (node_id (span_pool s))) eqn:Hc;
      [by apply elem_of_nil in Hn|].
    pose proof (serviceNodes_bounds (A:=A) g m (span_pool s) (span_top s) Hc)
      as Hb.
    rewrite Forall_forall in Hb. destruct (Hb n Hn) as (Hlo & Hhi & _).
    assert (Hbot : span_bottom s
                   = span_top s + clusterHeight g m (span_pool s)).
    { rewrite clusterSpans_spansFrom in Hs.
      pose proof (spansFrom_height g m (computePools g) yOffset) as Hh.
      rewrite Forall_forall in Hh. destruct (Hh s Hs). lia. }
    unfold serviceYSpacing in Hhi.
    split_and!; [done..|lia|].
    unfold serviceNodes in Hn.
    apply elem_of_lookup_imap_1 in Hn as (idx & src & -> & Hidx).
    exists idx, src. done.
  - assert (rf_type n = notebook ∨ rf_type n = eai) as [Hn' | Hn'];
      [|congruence..].
    apply elem_of_app in Hn as [Hn | Hn]; [left|right];
      unfold columnNodes in Hn;
      apply elem_of_lookup_imap_1 in Hn as (idx & src & -> & Hidx);
      apply list_elem_of_lookup_2, list_elem_of_filter in Hidx as [Hs _];
      unfold is_type in Hs; by apply bool_decide_unpack in Hs.
Qed.

(** ** Rendered and hidden services *)

Lemma listing_pool_unique g p q svc src :
  uniqueNodeIds g → uniquePoolNames g →
  p ∈ computePools g → q ∈ computePools g →
  svc ∈ poolServices g p → src ∈ poolServices g q →
  node_id src = node_id svc → node_id q = node_id p.
Proof.
  intros Hnd Hnames Hp Hq Hsvc Hsrc Hid.
  apply poolServices_service in Hsvc as (Hsvc_in & _ & Hsvc_pool).
  apply poolServices_service in Hsrc as (Hsrc_in & _ & Hsrc_pool).
  assert (src = svc) as -> by by apply (uniqueNodeIds_inj g).
  apply (uniquePoolNames_inj g); [done..|]. congruence.
Qed.

(** X5. In a graph with unique node ids and pool names, a service that names a
    pool of the graph is rendered exactly when that pool is expanded and
    hidden exactly when it is collapsed; it is never both, and never
    neither. *)
Theorem service_rendered_xor_hidden {A} (g : GraphData)
    (m : gmap string bool) (t : string → A) (p svc : GraphNode) :
  uniqueNodeIds g → uniquePoolNames g →
  p ∈ g_nodes g → node_type p = computePool →
  svc ∈ g_nodes g → node_type svc = service →
  data_computePool (node_data svc) = Some (data_name (node_data p)) →
  (node_id svc ∈ rf_id <$> lr_nodes (layoutNodesWithClusters g m t)
   ↔ isCollapsed m (node_id p) = false)
  ∧ (node_id svc ∈ lr_hiddenServiceIds (layoutNodesWithClusters g m t)
     ↔ isCollapsed m (node_id p) = true).
Proof.
  intros Hnd Hnames Hp Hpty Hsvc Hsty Hpool.
  assert (Hpc : p ∈ computePools g) by by apply computePools_elem_of.
  assert (Hlisted : svc ∈ poolServices g p)
    by by apply poolServices_complete.
  split; split.
  - intros (n & Hid & Hn)%list_elem_of_fmap.
    apply layout_node_source in Hn as (src & Hsrc & Hid' & _ & Hlist).
    assert (src = svc) as ->
      by (apply (uniqueNodeIds_inj g); [done..|congruence]).
    destruct (Hlist Hsty) as (q & Hq & Hexp & src' & Hsrc' & Hid'').
    by rewrite <- (listing_pool_unique g p q svc src').
  - intros Hexp. rewrite layout_ids. apply elem_of_app. left.
    apply list_elem_of_bind. exists p. split; [|done].
    unfold clusterIds. rewrite Hexp. right. by apply list_elem_of_fmap_2.
  - intros (q & Hq & Hc & src & Hsrc & Hid)%layout_hidden_elem_of.
    by rewrite <- (listing_pool_unique g p q svc src).
  - intros Hc. apply layout_hidden_elem_of. exists p. eauto 10.
Qed.

Lemma service_rendered_xor_hidden_witness :
  ("DB.APP.B1"
   ∈ rf_id <$> lr_nodes
       (layoutNodesWithClusters demoGraph {["POOL_BIG" := true]}
          toggleHandle)
   ↔ isCollapsed {["POOL_BIG" := true]} "POOL_BIG" = false)
  ∧ ("DB.APP.B1"
     ∈ lr_hiddenServiceIds
         (layoutNodesWithClusters demoGraph {["POOL_BIG" := true]}
            toggleHandle)
     ↔ isCollapsed {["POOL_BIG" := true]} "POOL_BIG" = true).
Proof.
  assert (Hnd : uniqueNodeIds demoGraph)
    by (unfold uniqueNodeIds; decide_by_computation).
  assert (Hnames : uniquePoolNames demoGraph)
    by (unfold uniquePoolNames; decide_by_computation).
  assert (Hp : demoPool "POOL_BIG" ∈ g_nodes demoGraph)
    by (unfold demoGraph; cbn [g_nodes]; elem_of_list).
  assert (Hs : demoService "B1" "POOL_BIG" ∈ g_nodes demoGraph)
    by (unfold demoGraph; cbn [g_nodes]; elem_of_list).
  exact (service_rendered_xor_hidden demoGraph {["POOL_BIG" := true]}
           toggleHandle (demoPool "POOL_BIG") (demoService "B1" "POOL_BIG")
           Hnd Hnames Hp eq_refl Hs eq_refl eq_refl).
Defined.

(** ** The hidden set and the rendered edges *)

(** X6. The hidden set holds exactly the ids of the service nodes that name a
    collapsed compute-pool node of the graph; an edge is rendered exactly
    when neither of its ends is such an id. *)
Theorem hidden_ids_characterised {A} (g : GraphData)
    (m : gmap string bool) (t : string → A) :
  let hidden := lr_hiddenServiceIds (layoutNodesWithClusters g m t) in
  (∀ x, x ∈ hidden ↔
        ∃ p svc, p ∈ g_nodes g ∧ node_type p = computePool
                 ∧ isCollapsed m (node_id p) = true
                 ∧ svc ∈ g_nodes g ∧ node_type svc = service
                 ∧ data_computePool (node_data svc)
                   = Some (data_name (node_data p))
                 ∧ x = node_id svc)
  ∧ (∀ e, renderEdge e ∈ createEdges g hidden ↔
          e ∈ g_edges g ∧ (edge_source e ∉ hidden)
          ∧ (edge_target e ∉ hidden)).
Proof.
  cbn zeta. split.
  - intros x. rewrite layout_hidden_elem_of. split.
    + intros (q & Hq & Hc & src & Hsrc & ->).
      apply computePools_elem_of in Hq as [Hq Hqt].
      apply poolServices_service in Hsrc as (? & ? & ?).
      exists q, src. done.
    + intros (p & svc & Hp & Hpt & Hc & Hsvc & Hst & Hpool & ->).
      exists p. split_and!; [by apply computePools_elem_of|done|].
      exists svc. split; [|done]. by apply poolServices_complete.
  - intros e. unfold createEdges. split.
    + intros (e' & Heq & He')%list_elem_of_fmap.
      assert (e = e') as <-.
      { destruct e, e'. cbv in Heq. congruence. }
      apply list_elem_of_filter in He' as [Hvis He'].
      unfold edgeVisible in Hvis.
      rewrite andb_True, !negb_True, !bool_decide_spec in Hvis. tauto.
    + intros (He & Hs & Ht). apply list_elem_of_fmap_2, list_elem_of_filter.
      split; [|done]. unfold edgeVisible.
      rewrite andb_True, !negb_True, !bool_decide_spec. tauto.
Qed.

Lemma edgeVisible_empty e : edgeVisible ∅ e = true.
Proof.
  unfold edgeVisible.
  by rewrite !bool_decide_eq_false_2 by apply not_elem_of_empty.
Qed.

(** X7. When no collapsed pool has a service (so whenever every pool is
    expanded), nothing is hidden and the rendered edges are all edges of
    the graph in input order, as in the first version of the component,
    which had no filter. *)
Theorem nothing_collapsed_renders_every_edge {A} (g : GraphData)
    (m : gmap string bool) (t : string → A) :
  (∀ p, p ∈ g_nodes g → node_type p = computePool →
        isCollapsed m (node_id p) = true → poolServices g p = []) →
  lr_hiddenServiceIds (layoutNodesWithClusters g m t) = ∅
  ∧ createEdges g (lr_hiddenServiceIds (layoutNodesWithClusters g m t))
    = renderEdge <$> g_edges g
  ∧ createEdges g (lr_hiddenServiceIds (layoutNodesWithClusters g m t))
    = FirstVersion.createEdges g.
Proof.
  intros Hm.
  assert (Hh : lr_hiddenServiceIds (layoutNodesWithClusters g m t) = ∅).
  { apply set_eq. intros x. rewrite layout_hidden_elem_of. split.
    - intros (q & Hq & Hc & src & Hsrc & _).
      apply computePools_elem_of in Hq as [Hq Hqt].
      rewrite (Hm q Hq Hqt Hc) in Hsrc. by apply elem_of_nil in Hsrc.
    - intros Hx. by apply not_elem_of_empty in Hx. }
  rewrite Hh. unfold createEdges, FirstVersion.createEdges.
  rewrite filter_Forall_id; [done|].
  apply Forall_forall. intros e _. by rewrite edgeVisible_empty.
Qed.

Lemma nothing_collapsed_renders_every_edge_witness :
  createEdges demoGraph
    (lr_hiddenServiceIds
       (layoutNodesWithClusters demoGraph initialCollapsedPools toggleHandle))
  = renderEdge <$> g_edges demoGraph.
Proof.
  refine (proj1 (proj2 (nothing_collapsed_renders_every_edge demoGraph
                          initialCollapsedPools toggleHandle _))).
  intros p Hp _ Hc. unfold demoGraph in Hp. cbn [g_nodes] in Hp.
  repeat (apply elem_of_cons in Hp as [-> | Hp];
          [vm_compute in Hc; discriminate Hc|]).
  by apply elem_of_nil in Hp.
Defined.

Lemma filter_sublist_impl {T} (P Q : T → Prop) `{!∀ x, Decision (P x)}
    `{!∀ x, Decision (Q x)} (l : list T) :
  (∀ x, P x → Q x) → filter P l `sublist_of` filter Q l.
Proof.
  intros HPQ. induction l as [|x l IH]; [done|].
  rewrite !filter_cons. destruct (decide (P x)) as [HP | HP].
  - rewrite decide_True by auto. by apply sublist_skip.
  - destruct (decide (Q x)); [by apply sublist_cons|done].
Qed.

(** X8. Collapsing more pools only hides more: if [m'] collapses every pool
    that [m] collapses, its hidden set contains that of [m] and its
    rendered edges are a sublist of those of [m]; and the rendered edges
    are always a sublist of the graph's edges, so the filter neither adds
    nor reorders edges. *)
Theorem collapsing_more_hides_more {A} (g : GraphData)
    (m m' : gmap string bool) (t : string → A) :
  collapsesMore m m' →
  lr_hiddenServiceIds (layoutNodesWithClusters g m t)
  ⊆ lr_hiddenServiceIds (layoutNodesWithClusters g m' t)
  ∧ createEdges g (lr_hiddenServiceIds (layoutNodesWithClusters g m' t))
    `sublist_of`
    createEdges g (lr_hiddenServiceIds (layoutNodesWithClusters g m t))
  ∧ createEdges g (lr_hiddenServiceIds (layoutNodesWithClusters g m t))
    `sublist_of` renderEdge <$> g_edges g.
Proof.
  intros Hmore.
  assert (Hsub : lr_hiddenServiceIds (layoutNodesWithClusters g m t)
                 ⊆ lr_hiddenServiceIds (layoutNodesWithClusters g m' t)).
  { intros x. rewrite !layout_hidden_elem_of.
    intros (q & Hq & Hc & Hsrc). exists q. split_and!; [done| |done].
    by apply Hmore. }
  split_and!; [done| |].
  - unfold createEdges. apply fmap_sublist, filter_sublist_impl.
    intros e. unfold edgeVisible.
    rewrite !andb_True, !negb_True, !bool_decide_spec.
    intros [Hs Ht]. split; intros Hx; [apply Hs|apply Ht]; by apply Hsub.
  - unfold createEdges. apply fmap_sublist, sublist_filter.
Qed.

Lemma collapsing_more_hides_more_witness :
  createEdges demoGraph
    (lr_hiddenServiceIds
       (layoutNodesWithClusters demoGraph {["POOL_BIG" := true]}
          toggleHandle))
  `sublist_of`
  createEdges demoGraph
    (lr_hiddenServiceIds (layoutNodesWithClusters demoGraph ∅ toggleHandle)).
Proof.
  refine (proj1 (proj2 (collapsing_more_hides_more demoGraph ∅
                          {["POOL_BIG" := true]} toggleHandle _))).
  intros poolId Hc. unfold isCollapsed in *.
  rewrite lookup_empty in Hc. cbn [default] in Hc.
  destruct (decide (poolId = "POOL_BIG")) as [-> | Hne].
  - vm_compute in Hc. discriminate Hc.
  - by rewrite lookup_singleton_ne.
Defined.

(** ** The collapse state under toggles *)

(** X9. A toggle flips the state of its pool id and leaves the entry of every
    other id as it was; toggles of different ids commute. *)
Theorem toggle_flips_one (m : gmap string bool) (p : string) :
  isCollapsed (togglePoolCollapse m p) p = negb (isCollapsed m p)
  ∧ (∀ q, q ≠ p → togglePoolCollapse m p !! q = m !! q
                  ∧ isCollapsed (togglePoolCollapse m p) q = isCollapsed m q)
  ∧ (∀ q, q ≠ p →
          togglePoolCollapse (togglePoolCollapse m p) q
          = togglePoolCollapse (togglePoolCollapse m q) p).
Proof.
  split_and!.
  - by rewrite isCollapsed_toggle, decide_True.
  - intros q Hq. split.
    + unfold togglePoolCollapse. by rewrite lookup_insert_ne.
    + by rewrite isCollapsed_toggle, decide_False.
  - intros q Hq. unfold togglePoolCollapse.
    rewrite !lookup_insert_ne by done. by apply insert_insert_ne.
Qed.

Lemma toggle_flips_one_witness :
  isCollapsed (togglePoolCollapse {["POOL_BIG" := true]} "POOL_SMALL")
    "POOL_BIG" = true
  ∧ togglePoolCollapse (togglePoolCollapse ∅ "POOL_SMALL") "POOL_BIG"
    = togglePoolCollapse (togglePoolCollapse ∅ "POOL_BIG") "POOL_SMALL".
Proof.
  split.
  - destruct (toggle_flips_one {["POOL_BIG" := true]} "POOL_SMALL")
      as (_ & Hother & _).
    destruct (Hother "POOL_BIG") as [_ Hstate]; [discriminate|].
    exact Hstate.
  - destruct (toggle_flips_one ∅ "POOL_SMALL") as (_ & _ & Hcomm).
    apply Hcomm. discriminate.
Defined.

Lemma isCollapsed_foldl_handleEvent events m p :
  isCollapsed (foldl handleEvent m events) p
  = xorb (isCollapsed m p) (Nat.odd (toggleCount p events)).
Proof.
  revert m. induction events as [|ev events IH]; intros m.
  - cbn. by destruct (isCollapsed m p).
  - cbn [foldl]. rewrite IH. unfold toggleCount. rewrite filter_cons.
    destruct (decide (ev = ToggleCollapse p)) as [-> | Hne].
    + cbn [handleEvent length].
      rewrite isCollapsed_toggle, decide_True by done.
      rewrite Nat.odd_succ, <- Nat.negb_odd.
      by destruct (isCollapsed m p), (Nat.odd _).
    + f_equal. destruct ev as [q| | | |]; try done. cbn.
      rewrite isCollapsed_toggle, decide_False; [done|]. congruence.
Qed.

(** X10. From the initial state, after any sequence of events a pool whose
    id is not a property name of [Object.prototype] is collapsed exactly
    when its toggle was invoked an odd number of times; a pool whose id is
    such a name starts collapsed, and is collapsed exactly when the number
    is even. Either way only the number of toggles counts: permuted event
    sequences lead to the same state and the same layout. *)
Theorem collapsed_iff_odd_toggles (events : list Event) (p : string) :
  isCollapsed (runEvents events) p
  = xorb (inherited p) (Nat.odd (toggleCount p events))
  ∧ (inherited p = false →
     isCollapsed (runEvents events) p = Nat.odd (toggleCount p events))
  ∧ (inherited p = true →
     isCollapsed (runEvents events) p = Nat.even (toggleCount p events))
  ∧ ∀ events', events ≡ₚ events' →
      isCollapsed (runEvents events') p = isCollapsed (runEvents events) p
      ∧ ∀ A g (t : string → A),
          layoutNodesWithClusters g (runEvents events') t
          = layoutNodesWithClusters g (runEvents events) t.
Proof.
  assert (Hodd : ∀ evs q,
    isCollapsed (runEvents evs) q
    = xorb (inherited q) (Nat.odd (toggleCount q evs))).
  { intros evs q. unfold runEvents.
    rewrite isCollapsed_foldl_handleEvent.
    unfold isCollapsed, initialCollapsedPools. by rewrite lookup_empty. }
  assert (Hperm : ∀ events' q, events ≡ₚ events' →
    isCollapsed (runEvents events') q = isCollapsed (runEvents events) q).
  { intros events' q Hp. rewrite !Hodd. unfold toggleCount. by rewrite Hp. }
  split_and!.
  - apply Hodd.
  - intros Hown. by rewrite Hodd, Hown.
  - intros Hinh. rewrite Hodd, Hinh, <- Nat.negb_odd. done.
  - intros events' Hp. split; [by apply Hperm|].
    intros A g t. apply layout_ext. intros q _. by apply Hperm.
Qed.

Lemma collapsed_iff_odd_toggles_witness :
  isCollapsed
    (runEvents [ToggleCollapse "POOL_BIG"; PaneClick;
                ToggleCollapse "POOL_SMALL"]) "POOL_BIG"
  = isCollapsed
      (runEvents [ToggleCollapse "POOL_SMALL"; ToggleCollapse "POOL_BIG";
                  PaneClick]) "POOL_BIG"
  ∧ isCollapsed
      (runEvents [ToggleCollapse "POOL_SMALL"; ToggleCollapse "POOL_BIG";
                  PaneClick]) "POOL_BIG" = true
  ∧ isCollapsed (runEvents [ToggleCollapse "toString"]) "toString" = false.
Proof.
  destruct (collapsed_iff_odd_toggles
              [ToggleCollapse "POOL_SMALL"; ToggleCollapse "POOL_BIG";
               PaneClick] "POOL_BIG") as (_ & Hown & _ & Hperm).
  destruct (collapsed_iff_odd_toggles [ToggleCollapse "toString"] "toString")
    as (_ & _ & Hinh & _).
  split_and!.
  - refine (proj1 (Hperm [ToggleCollapse "POOL_BIG"; PaneClick;
                          ToggleCollapse "POOL_SMALL"] _)).
    etrans; [apply perm_swap|]. apply perm_skip, perm_swap.
  - rewrite Hown; vm_compute; reflexivity.
  - rewrite Hinh; vm_compute; reflexivity.
Defined.

(** ** Collapsing and the vertical extent *)

Lemma clusterHeight_collapsesMore g m m' pool :
  collapsesMore m m' → clusterHeight g m' pool ≤ clusterHeight g m pool.
Proof.
  intros Hmore. destruct (isCollapsed m' (node_id pool)) eqn:Hc'.
  - rewrite (clusterHeight_collapsed g m') by done.
    apply clusterHeight_floor.
  - destruct (isCollapsed m (node_id pool)) eqn:Hc.
    + apply Hmore in Hc. congruence.
    + by rewrite !clusterHeight_expanded'.
Qed.

Lemma spansFrom_collapsesMore g m m' pools y y' :
  collapsesMore m m' → y' ≤ y →
  Forall2
    (λ s' s, span_pool s' = span_pool s ∧ span_top s' ≤ span_top s
             ∧ span_bottom s' ≤ span_bottom s)
    (spansFrom g m' pools y') (spansFrom g m pools y).
Proof.
  intros Hmore. revert y y'.
  induction pools as [|p pools IH]; intros y y' Hy; cbn [spansFrom];
    constructor.
  - pose proof (clusterHeight_collapsesMore g m m' p Hmore).
    cbn [span_pool span_top span_bottom]. split_and!; [done|lia..].
  - apply IH. pose proof (clusterHeight_collapsesMore g m m' p Hmore). lia.
Qed.

Lemma poolNodesFrom_collapsesMore {A} g m m' (t : string → A) pools y y' :
  collapsesMore m m' → y' ≤ y →
  Forall2 (λ n' n, rf_id n' = rf_id n ∧ rf_y n' ≤ rf_y n)
    (poolNodesFrom g m' t pools y') (poolNodesFrom g m t pools y).
Proof.
  intros Hmore. revert y y'.
  induction pools as [|p pools IH]; intros y y' Hy; cbn [poolNodesFrom];
    constructor.
  - cbn. split; [done|].
    pose proof (clusterHeight_collapsesMore g m m' p Hmore) as Hh.
    pose proof (clusterHeight_floor g m p).
    pose proof (clusterHeight_floor g m' p).
    pose proof (clusterHeight_even g m p).
    pose proof (clusterHeight_even g m' p).
    destruct (Z.ltb_spec 0 (clusterHeight g m p)),
      (Z.ltb_spec 0 (clusterHeight g m' p)); lia.
  - apply IH. pose proof (clusterHeight_collapsesMore g m m' p Hmore). lia.
Qed.

(** X11. Collapsing never moves a cluster down and never reorders the
    clusters: if [m'] collapses every pool that [m] collapses, the two
    layouts have the same pools in the same order, and under [m'] each
    cluster's top and bottom and each pool node's y are at most what they
    are under [m]. *)
Theorem collapsing_never_pushes_down {A} (g : GraphData)
    (m m' : gmap string bool) (t : string → A) :
  collapsesMore m m' →
  Forall2
    (λ s' s, span_pool s' = span_pool s ∧ span_top s' ≤ span_top s
             ∧ span_bottom s' ≤ span_bottom s)
    (clusterSpans g m' t) (clusterSpans g m t)
  ∧ Forall2 (λ n' n, rf_id n' = rf_id n ∧ rf_y n' ≤ rf_y n)
      (poolNodesOf (layoutNodesWithClusters g m' t))
      (poolNodesOf (layoutNodesWithClusters g m t)).
Proof.
  intros Hmore. rewrite !clusterSpans_spansFrom, !poolNodesOf_layout.
  split.
  - by apply spansFrom_collapsesMore.
  - by apply poolNodesFrom_collapsesMore.
Qed.

Lemma collapsing_never_pushes_down_witness :
  Forall2 (λ n' n, rf_id n' = rf_id n ∧ rf_y n' ≤ rf_y n)
    (poolNodesOf
       (layoutNodesWithClusters demoGraph {["POOL_BIG" := true]}
          toggleHandle))
    (poolNodesOf (layoutNodesWithClusters demoGraph ∅ toggleHandle)).
Proof.
  refine (proj2 (collapsing_never_pushes_down demoGraph ∅
                   {["POOL_BIG" := true]} toggleHandle _)).
  intros poolId Hc. unfold isCollapsed in *.
  rewrite lookup_empty in Hc. cbn [default] in Hc.
  destruct (decide (poolId = "POOL_BIG")) as [-> | Hne].
  - vm_compute in Hc. discriminate Hc.
  - by rewrite lookup_singleton_ne.
Defined.

(** ** Which nodes are rendered *)

Lemma plainNodes_sources {A} (l : list GraphNode) x (fy : nat → Z) :
  sourceNode <$> imap (λ i s, plainNode (A:=A) s x (fy i)) l = l.
Proof.
  rewrite fmap_imap. revert fy. induction l as [|s l IH]; intros fy; [done|].
  rewrite imap_cons. f_equal; [by destruct s|]. apply (IH (fy ∘ S)).
Qed.

Lemma clusterNodes_sources {A} g m (t : string → A) pools y :
  sourceNode <$> clusterNodes g m t pools y = pools ≫= clusterSources g m.
Proof.
  revert y. induction pools as [|p pools IH]; intros y; [done|].
  cbn [clusterNodes]. rewrite bind_cons, fmap_app, IH. f_equal.
  unfold clusterOf, clusterSources. rewrite fmap_cons.
  f_equal; [by destruct p|].
  destruct (isCollapsed m (node_id p)); [done|]. apply plainNodes_sources.
Qed.

Lemma layout_sources {A} g m (t : string → A) :
  sourceNode <$> lr_nodes (layoutNodesWithClusters g m t)
  = (computePools g ≫= clusterSources g m)
    ++ filter (λ n, is_type notebook n) (g_nodes g)
    ++ filter (λ n, is_type eai n) (g_nodes g).
Proof.
  rewrite layout_nodes, !fmap_app, clusterNodes_sources.
  unfold columnNodes. by rewrite !plainNodes_sources.
Qed.

Lemma filter_type_cons ty x (l : list GraphNode) :
  filter (λ n, is_type ty n) (x :: l)
  = if decide (node_type x = ty) then x :: filter (λ n, is_type ty n) l
    else filter (λ n, is_type ty n) l.
Proof.
  rewrite filter_cons.
  destruct (decide (node_type x = ty)) as [Hty|Hty].
  - rewrite decide_True; [done|]. by apply bool_decide_pack.
  - rewrite decide_False; [done|]. intros Hx. by apply bool_decide_unpack in Hx.
Qed.

(** A node list, split by the four node types. *)
Lemma nodes_by_type (l : list GraphNode) :
  l ≡ₚ filter (λ n, is_type computePool n) l
       ++ filter (λ n, is_type service n) l
       ++ filter (λ n, is_type notebook n) l
       ++ filter (λ n, is_type eai n) l.
Proof.
  induction l as [|x l IH]; [done|].
  rewrite !filter_type_cons.
  generalize dependent (filter (λ n, is_type computePool n) l).
  generalize dependent (filter (λ n, is_type service n) l).
  generalize dependent (filter (λ n, is_type notebook n) l).
  generalize dependent (filter (λ n, is_type eai n) l).
  intros le ln ls lp IH. rewrite IH at 1.
  destruct (node_type x); repeat case_decide; try done; solve_Permutation.
Qed.

Lemma bind_cons_split {T U} (f : T → U) (h : T → list U) (l : list T) :
  l ≫= (λ q, f q :: h q) ≡ₚ (f <$> l) ++ (l ≫= h).
Proof.
  induction l as [|x l IH]; [done|].
  rewrite !bind_cons, fmap_cons, IH.
  generalize (f <$> l) (l ≫= h) (h x) (f x). intros. solve_Permutation.
Qed.

Lemma bind_unless {T U} (c : T → bool) (h : T → list U) (l : list T) :
  l ≫= (λ q, if c q then [] else h q) = filter (λ q, c q = false) l ≫= h.
Proof.
  induction l as [|x l IH]; [done|].
  rewrite bind_cons, filter_cons, IH. destruct (c x) eqn:Hc.
  - by rewrite decide_False by done.
  - by rewrite decide_True, bind_cons by done.
Qed.

Lemma filter_or_disjoint {T} (P Q : T → Prop) `{!∀ x, Decision (P x)}
    `{!∀ x, Decision (Q x)} (l : list T) :
  (∀ x, P x → Q x → False) →
  filter (λ x, P x ∨ Q x) l ≡ₚ filter P l ++ filter Q l.
Proof.
  intros Hdisj. induction l as [|x l IH]; [done|].
  rewrite !filter_cons.
  destruct (decide (P x)) as [HP|HP], (decide (Q x)) as [HQ|HQ].
  - by destruct (Hdisj x).
  - rewrite decide_True by tauto. by rewrite IH.
  - rewrite decide_True by tauto. rewrite IH.
    generalize (filter P l) (filter Q l). intros. solve_Permutation.
  - by rewrite decide_False by tauto.
Qed.

(** Services grouped by the pool names of a duplicate-free list: the
    groups together are the services that name one of them. *)
Lemma services_by_name (names : list string) (l : list GraphNode) :
  NoDup names →
  names ≫= (λ name, filter (λ s, inPool (Some name) s) l)
  ≡ₚ filter (λ s, data_computePool (node_data s) ∈ Some <$> names) l.
Proof.
  induction 1 as [|name names Hname _ IH].
  - cbn. rewrite filter_Forall_nil; [done|].
    apply Forall_forall. intros s _. apply not_elem_of_nil.
  - rewrite bind_cons, IH, fmap_cons.
    rewrite (list_filter_iff (λ s, inPool (Some name) s)
               (λ s, data_computePool (node_data s) = Some name)).
    2:{ intros s. unfold inPool. by rewrite bool_decide_spec. }
    rewrite (list_filter_iff
               (λ s, data_computePool (node_data s)
                     ∈ Some name :: (Some <$> names))
               (λ s, data_computePool (node_data s) = Some name
                     ∨ data_computePool (node_data s) ∈ Some <$> names)).
    2:{ intros s. apply elem_of_cons. }
    symmetry. apply filter_or_disjoint.
    intros s Heq (n' & Hn & Hn')%list_elem_of_fmap.
    rewrite Heq in Hn. by injection Hn as ->.
Qed.

Lemma filter_iff_Forall {T} (P Q : T → Prop) `{!∀ x, Decision (P x)}
    `{!∀ x, Decision (Q x)} (l : list T) :
  Forall (λ x, P x ↔ Q x) l → filter P l = filter Q l.
Proof.
  induction 1 as [|x l Hx _ IH]; [done|].
  rewrite !filter_cons, IH. by repeat case_decide; try tauto.
Qed.

Lemma expandedPoolNames_NoDup g m :
  uniquePoolNames g → NoDup (expandedPoolNames g m).
Proof.
  intros Hnd. eapply sublist_NoDup; [exact Hnd|].
  unfold expandedPoolNames, poolNames. apply fmap_sublist, sublist_filter.
Qed.

(** X12. With unique pool names the rendered nodes are, each exactly once, the
    shown nodes of the graph: every compute pool, notebook and integration,
    and the services that name an expanded pool. Services that name a
    collapsed pool or no pool of the graph are the only nodes left out. *)
Theorem rendered_nodes_are_the_shown_nodes {A} (g : GraphData)
    (m : gmap string bool) (t : string → A) :
  uniquePoolNames g →
  sourceNode <$> lr_nodes (layoutNodesWithClusters g m t)
  ≡ₚ filter (shown g m) (g_nodes g).
Proof.
  intros Hnames. rewrite layout_sources.
  set (pools := filter (λ n, is_type computePool n) (g_nodes g)).
  (* the clusters *)
  assert (Hclusters :
    computePools g ≫= clusterSources g m
    ≡ₚ pools
       ++ filter (λ s, data_computePool (node_data s)
                       ∈ Some <$> expandedPoolNames g m) (services g)).
  { unfold computePools. fold pools. rewrite sort_desc_perm.
    unfold clusterSources.
    rewrite (bind_cons_split (λ q, q)
               (λ q, if isCollapsed m (node_id q) then []
                     else poolServices g q)).
    rewrite list_fmap_id. f_equiv.
    rewrite (bind_unless (λ q, isCollapsed m (node_id q)) (poolServices g)).
    rewrite <- (services_by_name (expandedPoolNames g m) (services g))
      by by apply expandedPoolNames_NoDup.
    unfold expandedPoolNames. fold pools. rewrite list_fmap_bind.
    apply reflexive_eq, list_bind_ext; [|done].
    intros q. apply poolServices_filter. }
  rewrite Hclusters.
  (* the graph's nodes, by type *)
  rewrite (nodes_by_type (g_nodes g)) at 3. rewrite !filter_app.
  fold pools. fold (services g).
  assert (Hall : ∀ ty, ty ≠ service →
    filter (shown g m) (filter (λ n, is_type ty n) (g_nodes g))
    = filter (λ n, is_type ty n) (g_nodes g)).
  { intros ty Hty. apply filter_Forall_id.
    eapply Forall_impl; [apply filter_type_Forall|].
    intros n Hn. left. congruence. }
  unfold pools. rewrite !Hall by done.
  rewrite (filter_iff_Forall (shown g m)
             (λ s, data_computePool (node_data s)
                   ∈ Some <$> expandedPoolNames g m) (services g)).
  2:{ eapply Forall_impl; [apply filter_type_Forall|].
      intros n Hn. unfold shown. split; [|by right].
      intros [Hne | Hin]; [done|done]. }
  by rewrite <- !(assoc_L (++)).
Qed.

Lemma rendered_nodes_are_the_shown_nodes_witness :
  sourceNode <$> lr_nodes
    (layoutNodesWithClusters demoGraph {["POOL_BIG" := true]} toggleHandle)
  ≡ₚ filter (shown demoGraph {["POOL_BIG" := true]}) (g_nodes demoGraph).
Proof.
  apply rendered_nodes_are_the_shown_nodes.
  unfold uniquePoolNames. decide_by_computation.
Defined.

(** ** The first version of the layout *)

Lemma FirstVersion_column_sources {A} g ty :
  sourceNode <$> FirstVersion.column (A:=A) g ty
  = filter (λ n, is_type ty n) (g_nodes g).
Proof. apply plainNodes_sources. Qed.

(** X13. The first layout renders every node of the graph exactly once, grouped
    by type (pools, services, notebooks, integrations) and in input order
    within a type; unlike the clustered layout it drops no service. *)
Theorem first_layout_renders_every_node {A} (g : GraphData) :
  sourceNode <$> FirstVersion.layoutNodes (A:=A) g
  = filter (λ n, is_type computePool n) (g_nodes g)
    ++ filter (λ n, is_type service n) (g_nodes g)
    ++ filter (λ n, is_type notebook n) (g_nodes g)
    ++ filter (λ n, is_type eai n) (g_nodes g)
  ∧ sourceNode <$> FirstVersion.layoutNodes (A:=A) g ≡ₚ g_nodes g
  ∧ length (FirstVersion.layoutNodes (A:=A) g) = length (g_nodes g).
Proof.
  assert (Heq : sourceNode <$> FirstVersion.layoutNodes (A:=A) g
    = filter (λ n, is_type computePool n) (g_nodes g)
      ++ filter (λ n, is_type service n) (g_nodes g)
      ++ filter (λ n, is_type notebook n) (g_nodes g)
      ++ filter (λ n, is_type eai n) (g_nodes g)).
  { unfold FirstVersion.layoutNodes.
    by rewrite !fmap_app, !FirstVersion_column_sources. }
  assert (Hperm : sourceNode <$> FirstVersion.layoutNodes (A:=A) g
                  ≡ₚ g_nodes g).
  { rewrite Heq. symmetry. apply nodes_by_type. }
  split_and!; [done..|].
  rewrite <- (length_fmap sourceNode). by rewrite Hperm.
Qed.

Lemma FirstVersion_column_apart {A} g ty :
  StronglySorted apart (FirstVersion.column (A:=A) g ty).
Proof.
  eapply StronglySorted_weaken; [|apply plainNodes_increasing].
  - intros a b Hab. by right.
  - intros i j Hij. unfold FirstVersion.ySpacing. lia.
Qed.

Lemma FirstVersion_column_x {A} g ty :
  Forall (λ n, rf_x n = FirstVersion.xPositions ty)
    (FirstVersion.column (A:=A) g ty).
Proof.
  apply Forall_forall. intros n Hn.
  by apply elem_of_lookup_imap_1 in Hn as (i & s & -> & _).
Qed.

(** X14. The first layout puts no two nodes at the same position. *)
Theorem first_layout_positions_distinct {A} (g : GraphData) :
  NoDup (position <$> FirstVersion.layoutNodes (A:=A) g).
Proof.
  apply apart_NoDup. unfold FirstVersion.layoutNodes.
  pose proof (FirstVersion_column_x (A:=A) g computePool) as Hp.
  pose proof (FirstVersion_column_x (A:=A) g service) as Hs.
  pose proof (FirstVersion_column_x (A:=A) g notebook) as Hn.
  pose proof (FirstVersion_column_x (A:=A) g eai) as He.
  rewrite Forall_forall in Hp, Hs, Hn, He.
  repeat (apply StronglySorted_app_2;
          [|apply FirstVersion_column_apart|]);
    [..|apply FirstVersion_column_apart];
    intros a b Ha Hb; left;
    rewrite ?elem_of_app in Hb;
    repeat match goal with
           | H : _ ∨ _ |- _ => destruct H
           | H : _ ∈ FirstVersion.column _ computePool |- _ =>
               apply Hp in H; rewrite H; clear H
           | H : _ ∈ FirstVersion.column _ service |- _ =>
               apply Hs in H; rewrite H; clear H
           | H : _ ∈ FirstVersion.column _ notebook |- _ =>
               apply Hn in H; rewrite H; clear H
           | H : _ ∈ FirstVersion.column _ eai |- _ =>
               apply He in H; rewrite H; clear H
           end; done.
Qed.

(** ** The compute-pool node component on the layout's nodes *)

Lemma poolNodesFrom_elem_of {A} g m (t : string → A) pools y n :
  n ∈ poolNodesFrom g m t pools y →
  ∃ p y0, p ∈ pools ∧ n = poolNode g m t p y0.
Proof.
  revert y. induction pools as [|p pools IH]; intros y Hn;
    cbn [poolNodesFrom] in Hn.
  - by apply elem_of_nil in Hn.
  - apply elem_of_cons in Hn as [-> | Hn].
    + exists p, y. split; [left|done].
    + destruct (IH _ Hn) as (q & y0 & Hq & ->).
      exists q, y0. split; [by right|done].
Qed.

(** X15. On every pool node the component renders: the collapse button and the
    count badge exist exactly when some service node names the pool; the
    flag the node reads is the pool's state in the collapse map; and a
    click on the button toggles this pool's id and no other, while a pool
    without services offers no button, so its state cannot be changed from
    its node. *)
Theorem pool_node_controls (g : GraphData) (m : gmap string bool) :
  Forall
    (λ n,
       (hasServices n = true ↔
        ∃ svc, svc ∈ g_nodes g ∧ node_type svc = service
               ∧ data_computePool (node_data svc)
                 = Some (data_name (rf_data n)))
       ∧ nodeIsCollapsed n = isCollapsed m (rf_id n)
       ∧ ∀ prev,
           clickCollapseButton n prev
           = if hasServices n then togglePoolCollapse prev (rf_id n)
             else prev)
    (poolNodesOf (layoutNodesWithClusters g m toggleHandle)).
Proof.
  rewrite poolNodesOf_layout. apply Forall_forall. intros n Hn.
  apply poolNodesFrom_elem_of in Hn as (p & y0 & Hp & ->).
  split_and!.
  - unfold hasServices. cbn [poolNode rf_serviceCount rf_data default].
    rewrite Nat.ltb_lt. split.
    + intros Hlen. destruct (poolServices g p) as [|svc l] eqn:Hl;
        [cbn in Hlen; lia|].
      assert (Hsvc : svc ∈ poolServices g p) by (rewrite Hl; left).
      apply poolServices_service in Hsvc as (? & ? & ?). eauto.
    + intros (svc & Hsvc & Hty & Hpool).
      pose proof (poolServices_complete g p svc Hsvc Hty Hpool) as Hin.
      destruct (poolServices g p); [by apply elem_of_nil in Hin|cbn; lia].
  - done.
  - intros prev. unfold clickCollapseButton.
    by destruct (hasServices _).
Qed.

(** ** Backend: the order of the pool listings *)









(** Without that condition the order matters: two pools that both list
    [A.B.S1] leave it with the pool queried last. *)
Example get_services_order_matters :
  get_services (Rows []) [Rows [demoRecord "POOL1"]; Rows [demoRecord "POOL2"]]
  = [demoRecord "POOL2"]
  ∧ get_services (Rows [])
      [Rows [demoRecord "POOL2"]; Rows [demoRecord "POOL1"]]
    = [demoRecord "POOL1"].
Proof. by vm_compute. Qed.

(** ** A graph without compute pools *)

(** X17. When the graph has no compute-pool node (the pool listing failed or is
    empty), there is no cluster: no service is rendered, only the
    notebooks and integrations are; nothing is hidden, so every edge is
    still rendered; and [App], which tests [data.nodes] only, shows the
    graph screen with the count of all nodes as soon as there is one. *)
Theorem graph_without_pools {A} (g : GraphData) (m : gmap string bool)
    (t : string → A) :
  (∀ n, n ∈ g_nodes g → node_type n ≠ computePool) →
  clusterSpans g m t = []
  ∧ sourceNode <$> lr_nodes (layoutNodesWithClusters g m t)
    = filter (λ n, is_type notebook n) (g_nodes g)
      ++ filter (λ n, is_type eai n) (g_nodes g)
  ∧ createEdges g (lr_hiddenServiceIds (layoutNodesWithClusters g m t))
    = renderEdge <$> g_edges g
  ∧ (g_nodes g ≠ [] →
     App false None (Some g)
     = GraphView (length (g_nodes g)) (length (g_edges g)) g).
Proof.
  intros Hno.
  assert (Hpools : computePools g = []).
  { unfold computePools. rewrite filter_Forall_nil; [done|].
    apply Forall_forall. intros n Hn Hty. apply (Hno n Hn).
    unfold is_type in Hty. by apply bool_decide_unpack in Hty. }
  split_and!.
  - rewrite clusterSpans_spansFrom. by rewrite Hpools.
  - rewrite layout_sources. by rewrite Hpools.
  - rewrite layout_hidden, Hpools. cbn. unfold createEdges.
    rewrite filter_Forall_id; [done|].
    apply Forall_forall. intros e _. by rewrite edgeVisible_empty.
  - intros Hne. unfold App. by destruct (g_nodes g).
Qed.

Lemma graph_without_pools_witness :
  lr_nodes
    (layoutNodesWithClusters
       {| g_nodes := [demoService "S1" "POOL_SMALL"];
          g_edges := [demoEdge "DB.APP.S1" "POOL_SMALL" "runs on"] |}
       ∅ toggleHandle) = []
  ∧ App false None
      (Some {| g_nodes := [demoService "S1" "POOL_SMALL"];
               g_edges := [demoEdge "DB.APP.S1" "POOL_SMALL" "runs on"] |})
    = GraphView 1 1
        {| g_nodes := [demoService "S1" "POOL_SMALL"];
           g_edges := [demoEdge "DB.APP.S1" "POOL_SMALL" "runs on"] |}.
Proof.
  destruct (graph_without_pools
              {| g_nodes := [demoService "S1" "POOL_SMALL"];
                 g_edges := [demoEdge "DB.APP.S1" "POOL_SMALL" "runs on"] |}
              ∅ toggleHandle) as (_ & Hnodes & _ & Happ).
  - intros n Hn. cbn [g_nodes] in Hn.
    apply list_elem_of_singleton in Hn. rewrite Hn. discriminate.
  - split.
    + apply fmap_nil_inv in Hnodes. exact Hnodes.
    + apply Happ. discriminate.
Defined.

(** ** The notebook card *)

Lemma string_app_empty_r (s : string) : s +:+ "" = s.
Proof.
  induction s as [|c s IH]; [done|].
  change (String c (s +:+ "") = String c s). by f_equal.
Qed.

(** X18. The idle-timeout line of the notebook card is shown for a non-zero
    timeout (an integer up to [Number.MAX_SAFE_INTEGER] in absolute value,
    printed in decimal digits); for a timeout of 0 the card shows the bare
    text "0" in its place, and nothing when the timeout is absent. The
    warehouse line is missing exactly when the warehouse is absent or the
    empty string. *)
Theorem notebook_optional_lines (data : NotebookData) :
  (nb_idleTimeout data = Some 0 →
   renderedText (idleTimeoutLine data) = Some (Text "0"))
  ∧ (∀ z, nb_idleTimeout data = Some z → z ≠ 0 →
          Z.abs z ≤ maxSafeInteger →
          renderedText (idleTimeoutLine data)
          = Some (Text ("Idle timeout: " +:+ pretty z +:+ "s")))
  ∧ (nb_idleTimeout data = None →
     renderedText (idleTimeoutLine data) = Some NoText)
  ∧ (renderedText (warehouseLine data) = Some NoText ↔
     nb_warehouse data = None ∨ nb_warehouse data = Some "")
  ∧ (∀ w, nb_warehouse data = Some w → w ≠ "" →
          renderedText (warehouseLine data) = Some (Text ("Warehouse: " +:+ w))).
Proof.
  unfold idleTimeoutLine, warehouseLine, jsAnd. split_and!.
  - by intros ->.
  - intros z -> Hz Hsafe. cbn [numberOrNull truthy].
    rewrite (proj2 (Z.eqb_neq z 0) Hz).
    cbn [negb renderedText elementText interpolate]. unfold numberToString.
    rewrite bool_decide_eq_true_2 by done. done.
  - by intros ->.
  - destruct (nb_warehouse data) as [w|]; cbn [stringOrNull truthy].
    + destruct (decide (w = "")) as [-> | Hw].
      * cbn. split; [by right|done].
      * rewrite bool_decide_eq_false_2 by done. cbn.
        split; [done|]. intros [? | [= ?]]; done.
    + split; [by left|done].
  - intros w -> Hw. cbn [stringOrNull truthy].
    rewrite bool_decide_eq_false_2 by done. cbn.
    by rewrite string_app_empty_r.
Qed.

Lemma notebook_optional_lines_witness :
  renderedText
    (idleTimeoutLine
       {| nb_name := "NB1"; nb_database := "DB"; nb_schema := "APP";
          nb_owner := "ADMIN"; nb_warehouse := None;
          nb_idleTimeout := Some 0 |}) = Some (Text "0")
  ∧ renderedText
      (idleTimeoutLine
         {| nb_name := "NB1"; nb_database := "DB"; nb_schema := "APP";
            nb_owner := "ADMIN"; nb_warehouse := Some "WH_XS";
            nb_idleTimeout := Some 3600 |})
    = Some (Text "Idle timeout: 3600s")
  ∧ renderedText
      (warehouseLine
         {| nb_name := "NB1"; nb_database := "DB"; nb_schema := "APP";
            nb_owner := "ADMIN"; nb_warehouse := Some "WH_XS";
            nb_idleTimeout := Some 3600 |})
    = Some (Text "Warehouse: WH_XS").
Proof.
  split_and!.
  - apply (proj1 (notebook_optional_lines _)). reflexivity.
  - refine (proj1 (proj2 (notebook_optional_lines _)) 3600 _ _ _).
    + reflexivity.
    + discriminate.
    + vm_compute. discriminate.
  - refine (proj2 (proj2 (proj2 (proj2 (notebook_optional_lines _))))
              "WH_XS" _ _).
    + reflexivity.
    + discriminate.
Defined.

(** ** What the layout reads from the node list *)

Lemma placeCluster_graph {A} g g' m (t : string → A) st pool :
  servicesByPool g = servicesByPool g' →
  placeCluster g m t st pool = placeCluster g' m t st pool.
Proof.
  intros Hs.
  unfold placeCluster, poolNode, serviceNodes, clusterHeight,
    visibleServiceCount, poolServices.
  by rewrite Hs.
Qed.

(** X19. The layout reads the node list through its four per-type sublists
    only: two graphs whose pools, services, notebooks and integrations
    are the same lists, however the types are interleaved, get the same
    layout result under every collapse map. *)
Theorem layout_reads_per_type_sublists {A} (g g' : GraphData)
    (m : gmap string bool) (t : string → A) :
  (∀ ty, filter (λ n, is_type ty n) (g_nodes g)
         = filter (λ n, is_type ty n) (g_nodes g')) →
  layoutNodesWithClusters g m t = layoutNodesWithClusters g' m t.
Proof.
  intros Hty.
  assert (Hs : servicesByPool g = servicesByPool g').
  { unfold servicesByPool. by rewrite (Hty service). }
  assert (Hpools : computePools g = computePools g').
  { unfold computePools. rewrite (Hty computePool).
    generalize (filter (λ n, is_type computePool n) (g_nodes g')).
    intros l. induction l as [|p l IH]; [done|].
    cbn [sort_desc foldr]. unfold sort_desc in IH. rewrite IH.
    generalize (foldr (insert_desc (serviceCount g')) [] l). intros l'.
    induction l' as [|q l' IH']; [done|]. cbn [insert_desc].
    unfold serviceCount at 1 2. rewrite Hs.
    fold (serviceCount g' q) (serviceCount g' p).
    by rewrite IH'. }
  unfold layoutNodesWithClusters, columnNodes.
  rewrite Hpools, (Hty notebook), (Hty eai).
  assert (Hfold : ∀ pools (st : LoopState A),
    foldl (placeCluster g m t) st pools
    = foldl (placeCluster g' m t) st pools).
  { induction pools as [|p pools IH]; intros st; [done|]. cbn [foldl].
    by rewrite (placeCluster_graph g g'), IH. }
  by rewrite Hfold.
Qed.

Lemma layout_reads_per_type_sublists_witness :
  layoutNodesWithClusters
    {| g_nodes := [demoService "S1" "POOL_SMALL"; demoPool "POOL_SMALL"];
       g_edges := [] |} ∅ toggleHandle
  = layoutNodesWithClusters
      {| g_nodes := [demoPool "POOL_SMALL"; demoService "S1" "POOL_SMALL"];
         g_edges := [] |} ∅ toggleHandle.
Proof.
  apply layout_reads_per_type_sublists.
  intros ty. destruct ty; reflexivity.
Defined.

(** ** Pool ids the collapse map does not contain *)

(** X20. A pool whose id the collapse map does not contain, and whose id is
    not a property name of [Object.prototype], is treated as expanded: its
    rendered node reports [__collapsed = false], and every service of the
    graph that names the pool is positioned in the pool's cluster, in the
    service column, stacked from the cluster's top at the service
    spacing. *)
Theorem unseen_ordinary_pool_is_expanded {A} (g : GraphData)
    (m : gmap string bool) (t : string → A) (p : GraphNode) :
  p ∈ g_nodes g → node_type p = computePool → m !! node_id p = None →
  inherited (node_id p) = false →
  isCollapsed m (node_id p) = false
  ∧ ∃ s, s ∈ clusterSpans g m t ∧ span_pool s = p
      ∧ poolNode g m t p (span_top s)
        ∈ lr_nodes (layoutNodesWithClusters g m t)
      ∧ rf_collapsed (poolNode g m t p (span_top s)) = Some false
      ∧ ∀ svc, svc ∈ g_nodes g → node_type svc = service →
          data_computePool (node_data svc)
          = Some (data_name (node_data p)) →
          ∃ idx : nat,
            poolServices g p !! idx = Some svc
            ∧ plainNode svc xPositions_service
                (span_top s + Z.of_nat idx * serviceYSpacing)
              ∈ lr_nodes (layoutNodesWithClusters g m t).
Proof.
  intros Hp Hty Hm Hown.
  assert (Hexp : isCollapsed m (node_id p) = false).
  { unfold isCollapsed. by rewrite Hm. }
  split; [done|].
  destruct (spansFrom_pool_elem_of g m (computePools g) yOffset p)
    as (s & Hs & <-).
  { by apply computePools_elem_of. }
  rewrite <- (clusterSpans_spansFrom g m t) in Hs.
  pose proof (layout_cluster g m t s Hs) as Hsub.
  unfold clusterOf in Hsub. rewrite Hexp in Hsub.
  exists s. split_and!; [done|done|set_solver|by cbn; rewrite Hexp|].
  intros svc Hsvc Hsty Hpool.
  pose proof (poolServices_complete g (span_pool s) svc Hsvc Hsty Hpool)
    as Hin.
  apply list_elem_of_lookup in Hin as [idx Hidx].
  exists idx. split; [done|].
  apply Hsub. right.
  unfold serviceNodes.
  apply (elem_of_lookup_imap_2
           (λ idx svc, plainNode svc xPositions_service
                         (span_top s + Z.of_nat idx * serviceYSpacing))
           _ _ _ Hidx).
Qed.

Lemma unseen_ordinary_pool_is_expanded_witness :
  isCollapsed ∅ "POOL_SMALL" = false
  ∧ ∃ s, s ∈ clusterSpans demoGraph ∅ toggleHandle
      ∧ span_pool s = demoPool "POOL_SMALL"
      ∧ ∃ idx : nat,
          poolServices demoGraph (demoPool "POOL_SMALL") !! idx
          = Some (demoService "S2" "POOL_SMALL")
          ∧ plainNode (demoService "S2" "POOL_SMALL") xPositions_service
              (span_top s + Z.of_nat idx * serviceYSpacing)
            ∈ lr_nodes (layoutNodesWithClusters demoGraph ∅ toggleHandle).
Proof.
  destruct (unseen_ordinary_pool_is_expanded demoGraph ∅ toggleHandle
              (demoPool "POOL_SMALL"))
    as (Hexp & s & Hs & Hsp & _ & _ & Hsvc).
  - unfold demoGraph. cbn [g_nodes]. elem_of_list.
  - reflexivity.
  - reflexivity.
  - vm_compute. reflexivity.
  - split; [exact Hexp|]. exists s. split; [exact Hs|]. split; [exact Hsp|].
    apply (Hsvc (demoService "S2" "POOL_SMALL")).
    + unfold demoGraph. cbn [g_nodes]. elem_of_list.
    + reflexivity.
    + reflexivity.
Defined.
